(** * Arithmetic expression evaluator: tokenizer, shunting-yard parser and
    postfix evaluator of [Source Code/main.cpp], embedded and verified.

    The three classes [EnhancedTokenizer], [ImprovedParser] and
    [RefinedEvaluator] are pure functions of their argument; they are
    embedded as functions on strings and token lists.  Exceptions are values
    of a sum type, an early [return] inside a loop is an [option], doubles
    are IEEE 754 binary64 numbers ([spec_float] at precision 53). *)

From Stdlib Require Import ZArith Lia Bool Ascii String.
From Stdlib Require Import Floats.SpecFloat.
From stdpp Require Import base option list strings gmap.

Local Open Scope string_scope.
Local Open Scope list_scope.
#[local] Arguments String.append !_ _ : simpl nomatch.

(** ** Characters: <cctype> in the "C" locale *)

Module CType.

Definition code (c : ascii) : N := N_of_ascii c.

(** [std::isdigit]: '0' .. '9'. *)
Definition isdigit (c : ascii) : bool :=
  (48 <=? code c)%N && (code c <=? 57)%N.

(** [std::isspace]: space, \t, \n, \v, \f, \r.  It is also the set of
    characters that formatted extraction ([iss >> c]) skips. *)
Definition isspace (c : ascii) : bool :=
  (code c =? 32)%N || ((9 <=? code c)%N && (code c <=? 13)%N).

End CType.
Export CType.

(** ** Tokens (lines 13-25) *)

Inductive TokenType : Set :=
| NUMBER
| OPERATOR
| PARENTHESIS
| INVALID.

Record Token : Set := { value : string; type : TokenType }.

#[global] Instance TokenType_eq_dec : EqDecision TokenType.
Proof. solve_decision. Defined.

#[global] Instance Token_eq_dec : EqDecision Token.
Proof. solve_decision. Defined.

(** [std::vector::push_back] and [std::queue::push]: both add at the back. *)
Definition push_back {A : Type} (v : list A) (x : A) : list A := v ++ [x].

(** [std::string(1, c)] *)
Definition string1 (c : ascii) : string := String c EmptyString.

(** ** EnhancedTokenizer (lines 27-71) *)

Definition isOperator (c : ascii) : bool :=
  Ascii.eqb c "+" || Ascii.eqb c "-" || Ascii.eqb c "*" ||
  Ascii.eqb c "/" || Ascii.eqb c "%" || Ascii.eqb c "^".

(** A character that continues a number (the tests of lines 38 and 41). *)
Definition isNumberChar (c : ascii) : bool := isdigit c || Ascii.eqb c ".".

(** The body of [tokenize]'s [while (iss >> c)] loop.  The stream [iss] is
    the text not yet read.  [iss >> c] skips white space and then reads one
    character: a white-space character at the head of the stream is dropped
    without any other effect.  The inner [while] of lines 41-43 is the local
    [number_loop], which reads with [peek]/[get] and so skips nothing. *)
Fixpoint tokenize_loop (iss : string) (mayBeUnary : bool) (tokens : list Token)
    {struct iss} : list Token :=
  match iss with
  | EmptyString => tokens
  | String c rest =>
    if isspace c then tokenize_loop rest mayBeUnary tokens
    else if isNumberChar c then
      (fix number_loop (iss' : string) (number : string) {struct iss'} : list Token :=
         match iss' with
         | String d rest' =>
           if isNumberChar d then number_loop rest' (number +:+ string1 d)
           else tokenize_loop iss' false
                  (push_back tokens {| value := number; type := NUMBER |})
         | EmptyString => push_back tokens {| value := number; type := NUMBER |}
         end) rest (string1 c)
    else if isOperator c then
      if Ascii.eqb c "-" && mayBeUnary then
        tokenize_loop rest true (push_back tokens {| value := "~"; type := OPERATOR |})
      else if Ascii.eqb c "+" && mayBeUnary then
        tokenize_loop rest true tokens
      else
        tokenize_loop rest true (push_back tokens {| value := string1 c; type := OPERATOR |})
    else if Ascii.eqb c "(" || Ascii.eqb c ")" then
      tokenize_loop rest (Ascii.eqb c "(")
        (push_back tokens {| value := string1 c; type := PARENTHESIS |})
    else
      (* line 58: c was read by >>, so it is not white space *)
      [ {| value := string1 c; type := INVALID |} ]
  end.

Definition tokenize (expression : string) : list Token :=
  tokenize_loop expression true [].

(** The inner loop on its own: the number read so far and the rest of the
    stream when it stops. *)
Fixpoint read_number (iss : string) (number : string) : string * string :=
  match iss with
  | String d rest =>
    if isNumberChar d then read_number rest (number +:+ string1 d)
    else (number, iss)
  | EmptyString => (number, EmptyString)
  end.

(** ** ImprovedParser (lines 73-135) *)

(** The table of lines 82-84. *)
Definition precedence : gmap string Z :=
  list_to_map
    [("~", 4); ("^", 3); ("*", 2); ("/", 2); ("%", 2); ("+", 1); ("-", 1)]%Z.

(** [precedence[key]]: [std::map::operator[]] gives the stored level, and for
    an absent key it stores and gives a value-initialised [int], 0.  The map
    is local to [parse] and read through [operator[]] only, so the stored
    zeros change no later reading (lemma [subscript_insert_default]) and the
    table itself is read throughout. *)
Definition subscript (m : gmap string Z) (key : string) : Z :=
  default 0%Z (m !! key).

(** The loop of lines 97-101, for the incoming operator [token]: the queue
    and the stack (top first) when it stops. *)
Fixpoint pop_by_precedence (token : Token) (outputQueue operatorStack : list Token)
    : list Token * list Token :=
  match operatorStack with
  | top :: below =>
    if (subscript precedence (value top) >=? subscript precedence (value token))%Z
    then pop_by_precedence token (push_back outputQueue top) below
    else (outputQueue, operatorStack)
  | [] => (outputQueue, [])
  end.

(** The loop of lines 109-112. *)
Fixpoint pop_to_open_paren (outputQueue operatorStack : list Token)
    : list Token * list Token :=
  match operatorStack with
  | top :: below =>
    if negb (String.eqb (value top) "(")
    then pop_to_open_paren (push_back outputQueue top) below
    else (outputQueue, operatorStack)
  | [] => (outputQueue, [])
  end.

(** One iteration of the [for] loop of lines 86-121.  [None] is one of the
    two [return std::queue<Token>()] inside the loop (lines 89 and 117). *)
Definition parse_token (token : Token) (outputQueue operatorStack : list Token)
    : option (list Token * list Token) :=
  match type token with
  | INVALID => None
  | NUMBER => Some (push_back outputQueue token, operatorStack)
  | OPERATOR =>
    let '(outputQueue, operatorStack) :=
      pop_by_precedence token outputQueue operatorStack in
    Some (outputQueue, token :: operatorStack)
  | PARENTHESIS =>
    if String.eqb (value token) "(" then Some (outputQueue, token :: operatorStack)
    else
      let '(outputQueue, operatorStack) :=
        pop_to_open_paren outputQueue operatorStack in
      match operatorStack with
      | top :: below =>
        if String.eqb (value top) "(" then Some (outputQueue, below) else None
      | [] => None
      end
  end.

Fixpoint parse_loop (tokens : list Token) (outputQueue operatorStack : list Token)
    : option (list Token * list Token) :=
  match tokens with
  | [] => Some (outputQueue, operatorStack)
  | token :: rest =>
    match parse_token token outputQueue operatorStack with
    | Some (outputQueue, operatorStack) => parse_loop rest outputQueue operatorStack
    | None => None
    end
  end.

(** The loop of lines 124-131; [None] is the [return std::queue<Token>()]
    of line 127. *)
Fixpoint parse_sweep (outputQueue operatorStack : list Token) : option (list Token) :=
  match operatorStack with
  | top :: below =>
    match type top with
    | PARENTHESIS => None
    | _ => parse_sweep (push_back outputQueue top) below
    end
  | [] => Some outputQueue
  end.

(** The three early returns all return an empty queue. *)
Definition parse (tokens : list Token) : list Token :=
  match parse_loop tokens [] [] with
  | Some (outputQueue, operatorStack) =>
    match parse_sweep outputQueue operatorStack with
    | Some outputQueue => outputQueue
    | None => []
    end
  | None => []
  end.

(** ** double: IEEE 754 binary64 *)

Module Double.

Definition prec : Z := 53.
Definition emax : Z := 1024.

Definition double : Set := spec_float.

Definition add : double -> double -> double := SFadd prec emax.
Definition sub : double -> double -> double := SFsub prec emax.
Definition mul : double -> double -> double := SFmul prec emax.
Definition div : double -> double -> double := SFdiv prec emax.
Definition neg : double -> double := SFopp.
(** [==] on doubles: -0.0 == 0.0, and a NaN equals nothing. *)
Definition eqb : double -> double -> bool := SFeqb.

(** The double nearest to an integer; exact below 2^53. *)
Definition of_Z (n : Z) : double := binary_normalize prec emax n 0 false.

(** The double nearest to [num / den], for [num >= 0] and [den > 0], with
    the sign [s]: the quotient is taken with enough bits and its position
    between two doubles, then rounded to nearest, ties to even. *)
Definition of_ratio (s : bool) (num den : Z) : double :=
  let '(m, e, l) := SFdiv_core_binary prec emax num 0 den 0 in
  binary_round_aux prec emax s m e l.

Definition is_finite (x : double) : bool :=
  match x with
  | S754_zero _ | S754_finite _ _ _ => true
  | S754_infinity _ | S754_nan => false
  end.

(** [x] is [num / den] exactly (up to sign). *)
Definition is_ratio (x : double) (num den : Z) : bool :=
  match x with
  | S754_zero _ => (num =? 0)%Z
  | S754_finite _ m e =>
    match e with
    | Zneg _ => (Zpos m * den =? num * 2 ^ (- e))%Z
    | _ => (Zpos m * 2 ^ e * den =? num)%Z
    end
  | _ => false
  end.

(** [std::fmod] (C11 F.10.7.1): the result is exact, has the sign of [x]
    and a magnitude below that of [y]. *)
Definition fmod (x y : double) : double :=
  match x, y with
  | S754_nan, _ | _, S754_nan => S754_nan
  | S754_infinity _, _ | _, S754_zero _ => S754_nan
  | _, S754_infinity _ => x
  | S754_zero _, _ => x
  | S754_finite sx mx ex, S754_finite _ my ey =>
    let ez := Z.min ex ey in
    let r := Z.rem (Zpos (fst (shl_align mx ex ez))) (Zpos (fst (shl_align my ey ez))) in
    binary_normalize prec emax (cond_Zopp sx r) ez sx
  end.

End Double.
Export Double.

Declare Scope double_scope.
Delimit Scope double_scope with double.
Bind Scope double_scope with double.
Notation "x + y" := (Double.add x y) : double_scope.
Notation "x - y" := (Double.sub x y) : double_scope.
Notation "x * y" := (Double.mul x y) : double_scope.
Notation "x / y" := (Double.div x y) : double_scope.
Notation "- x" := (Double.neg x) : double_scope.
Notation "x == y" := (Double.eqb x y) (at level 70, no associativity) : double_scope.

(** ** Exceptions *)

Inductive exception : Set :=
| runtime_error (what : string)
| invalid_argument (what : string)
| out_of_range (what : string).

(** A computation that returns an [A] ([inr]) or throws ([inl]). *)
Definition throws (A : Type) : Type := (exception + A)%type.

Definition throw {A : Type} (e : exception) : throws A := inl e.

#[global] Instance throws_ret : MRet throws := fun A x => inr x.
#[global] Instance throws_bind : MBind throws :=
  fun A B f m => match m with inl e => inl e | inr x => f x end.

(** ** std::stod

    [std::stod(str)] calls [strtod] on the characters of [str]; it throws
    [invalid_argument] when no conversion is made and [out_of_range] when
    [strtod] reports [ERANGE].  [strtod] is the one of the "C" locale
    (C11 7.22.1.3), correctly rounded; underflow is reported when the result
    is tiny and inexact. *)

Module Strtod.

Definition tolower (c : ascii) : ascii :=
  if (65 <=? code c)%N && (code c <=? 90)%N
  then ascii_of_N (code c + 32) else c.

Definition digit (c : ascii) : option Z :=
  if isdigit c then Some (Z.of_N (code c) - 48)%Z else None.

Definition xdigit (c : ascii) : option Z :=
  if isdigit c then Some (Z.of_N (code c) - 48)%Z
  else let l := code (tolower c) in
       if (97 <=? l)%N && (l <=? 102)%N then Some (Z.of_N l - 87)%Z else None.

(** The longest run of digits at the head of [s]: the number they spell
    after [acc], how many they are, and what follows. *)
Fixpoint digits (dv : ascii -> option Z) (base : Z) (s : string) (acc count : Z)
    : Z * Z * string :=
  match s with
  | String c rest =>
    match dv c with
    | Some d => digits dv base rest (acc * base + d)%Z (count + 1)%Z
    | None => (acc, count, s)
    end
  | EmptyString => (acc, count, s)
  end.

(** Digits with at most one radix character and at least one digit: the
    digits as one integer, the number of digits after the radix character,
    and what follows. *)
Definition mantissa (dv : ascii -> option Z) (base : Z) (s : string)
    : option (Z * Z * string) :=
  let '(n, c, rest) := digits dv base s 0 0 in
  match rest with
  | String "." rest' =>
    let '(n', c', rest'') := digits dv base rest' n 0 in
    if (c + c' =? 0)%Z then None else Some (n', c', rest'')
  | _ => if (c =? 0)%Z then None else Some (n, 0%Z, rest)
  end.

Definition sign (s : string) : bool * string :=
  match s with
  | String "-" rest => (true, rest)
  | String "+" rest => (false, rest)
  | _ => (false, s)
  end.

(** The exponent part after the mantissa: the letter [mark], an optional
    sign and at least one decimal digit; 0 when there is none. *)
Definition exponent (mark : ascii) (s : string) : Z :=
  match s with
  | String c rest =>
    if Ascii.eqb (tolower c) mark then
      let '(negative, rest') := sign rest in
      let '(x, count, _) := digits digit 10 rest' 0 0 in
      if (count =? 0)%Z then 0%Z else if negative then (- x)%Z else x
    else 0%Z
  | EmptyString => 0%Z
  end.

Fixpoint skip_space (s : string) : string :=
  match s with
  | String c rest => if isspace c then skip_space rest else s
  | EmptyString => s
  end.

(** [prefix_ci p s]: [s] starts with [p], letter case ignored. *)
Fixpoint prefix_ci (p s : string) : bool :=
  match p, s with
  | EmptyString, _ => true
  | String a p', String b s' => Ascii.eqb a (tolower b) && prefix_ci p' s'
  | _, _ => false
  end.

(** The value [(-1)^negative * n * base^x] as a double, and whether it is
    out of range. *)
Definition scaled (negative : bool) (n base x : Z) : double * bool :=
  if (n =? 0)%Z then (S754_zero negative, false)
  else
    let '(num, den) :=
      match x with
      | Zneg _ => (n, base ^ (- x))%Z
      | _ => (n * base ^ x, 1)%Z
      end in
    let r := of_ratio negative num den in
    let tiny := (num * 2 ^ 1076 <? (2 ^ 54 - 1) * den)%Z in
    (r, negb (is_finite r) || (tiny && negb (is_ratio r num den))).

(** The number at the head of [nptr] and whether [errno] becomes [ERANGE];
    [None] when no conversion is made. *)
Definition strtod (nptr : string) : option (double * bool) :=
  let '(negative, s) := sign (skip_space nptr) in
  if prefix_ci "inf" s then Some (S754_infinity negative, false)
  else if prefix_ci "nan" s then Some (S754_nan, false)
  else
    let hex :=
      match s with
      | String "0" (String x rest) =>
        if Ascii.eqb (tolower x) "x" then mantissa xdigit 16 rest else None
      | _ => None
      end in
    match hex with
    | Some (n, frac, rest) =>
      Some (scaled negative n 2 (exponent "p" rest - 4 * frac))
    | None =>
      match mantissa digit 10 s with
      | Some (n, frac, rest) =>
        Some (scaled negative n 10 (exponent "e" rest - frac))
      | None => None
      end
    end.

End Strtod.

Definition stod (str : string) : throws double :=
  match Strtod.strtod str with
  | None => throw (invalid_argument "stod")
  | Some (d, true) => throw (out_of_range "stod")
  | Some (d, false) => mret d
  end.

(** ** RefinedEvaluator (lines 137-196) *)

Section Evaluator.

(** [std::pow].  The accuracy of the library's power function is not fixed
    by the language, so it is a parameter of the evaluator; what a statement
    needs of it is a hypothesis of that statement. *)
Variable pow : double -> double -> double.

Definition applyOperator (left right : double) (op : string) : throws double :=
  if String.eqb op "+" then mret (left + right)%double
  else if String.eqb op "-" then mret (left - right)%double
  else if String.eqb op "*" then mret (left * right)%double
  else if String.eqb op "/" then mret (left / right)%double
  else if String.eqb op "%" then mret (fmod left right)
  else if String.eqb op "^" then mret (pow left right)
  else if String.eqb op "~" then mret (- left)%double
  else throw (runtime_error "Unknown operator").

(** One iteration of the [while] loop of lines 144-175 on the front token;
    the stack has its top first, so [right_] (the source's [right]) is
    popped before [left_]. *)
Definition evaluate_token (token : Token) (evaluationStack : list double)
    : throws (list double) :=
  match type token with
  | NUMBER =>
    d ← stod (value token);
    mret (d :: evaluationStack)
  | OPERATOR =>
    if String.eqb (value token) "~" then
      match evaluationStack with
      | [] => throw (runtime_error "Error: Insufficient operands for unary operator")
      | operand :: evaluationStack => mret ((- operand)%double :: evaluationStack)
      end
    else
      match evaluationStack with
      | right_ :: left_ :: evaluationStack =>
        if (String.eqb (value token) "/" || String.eqb (value token) "%")
           && (right_ == S754_zero false)%double
        then throw (runtime_error "Error: Attempted division/modulo by zero")
        else
          r ← applyOperator left_ right_ (value token);
          mret (r :: evaluationStack)
      | _ =>
        throw (runtime_error
                 ("Error: Insufficient operands for operator '" +:+ value token +:+ "'"))
      end
  | _ => mret evaluationStack
  end.

Fixpoint evaluate_loop (parsedExpression : list Token) (evaluationStack : list double)
    : throws (list double) :=
  match parsedExpression with
  | [] => mret evaluationStack
  | token :: parsedExpression =>
    evaluationStack ← evaluate_token token evaluationStack;
    evaluate_loop parsedExpression evaluationStack
  end.

Definition evaluate (parsedExpression : list Token) : throws double :=
  evaluationStack ← evaluate_loop parsedExpression [];
  match evaluationStack with
  | [top] => mret top
  | _ => throw (runtime_error "Error: Invalid expression format")
  end.

(** ** handleExpression (lines 244-274), without the console

    What becomes of [result]: a text, or the double written to [oss]. *)
Inductive Result : Set :=
| Text (result : string)
| Printed (evalResult : double).

(** The [catch] clause of line 266 takes [std::runtime_error] only; any
    other exception leaves [handleExpression]. *)
Definition handleExpression (expression : string) : throws Result :=
  let tokens := tokenize expression in
  match tokens with
  | [] => mret (Text "Error, Invalid expression")
  | [ {| value := _; type := INVALID |} ] => mret (Text "Error, Invalid expression")
  | _ =>
    let parsedExpression := parse tokens in
    match parsedExpression with
    | [] => mret (Text "Error, Invalid expression")
    | _ =>
      match evaluate parsedExpression with
      | inr evalResult => mret (Printed evalResult)
      | inl (runtime_error what) => mret (Text what)
      | inl e => throw e
      end
    end
  end.

End Evaluator.

(** A power function to run the evaluator with: 1 for the exponent 0, the
    correctly rounded power of a finite base for an exponent that is a
    positive integer, and NaN elsewhere. *)
Definition pow_natural (x y : double) : double :=
  let n :=
    match y with
    | S754_zero _ => Some 0%Z
    | S754_finite false m (Zneg e) =>
      if (Zpos m mod 2 ^ Zpos e =? 0)%Z then Some (Zpos m / 2 ^ Zpos e)%Z else None
    | S754_finite false m e => Some (Zpos m * 2 ^ e)%Z
    | _ => None
    end in
  match n, x with
  | Some 0%Z, _ => of_Z 1
  | Some n, S754_zero s => S754_zero (s && Z.odd n)
  | Some n, S754_finite s m e =>
    binary_normalize prec emax (cond_Zopp (s && Z.odd n) (Zpos m ^ n)) (e * n) false
  | _, _ => S754_nan
  end.

(** ** The error conditions of the specification, as the code signals them *)

Definition InsufficientOperandsUnary : exception :=
  runtime_error "Error: Insufficient operands for unary operator".
Definition InsufficientOperands (op : string) : exception :=
  runtime_error ("Error: Insufficient operands for operator '" +:+ op +:+ "'").
Definition DivisionByZero : exception :=
  runtime_error "Error: Attempted division/modulo by zero".
Definition InvalidExpressionFormat : exception :=
  runtime_error "Error: Invalid expression format".
(** [InvalidToken] and [MalformedStructure] reach the caller as one text. *)
Definition InvalidExpression : Result := Text "Error, Invalid expression".

Definition Number (lexeme : string) : Token := {| value := lexeme; type := NUMBER |}.
Definition Operator (lexeme : string) : Token := {| value := lexeme; type := OPERATOR |}.
Definition Parenthesis (lexeme : string) : Token := {| value := lexeme; type := PARENTHESIS |}.
Definition Invalid (c : ascii) : Token := {| value := string1 c; type := INVALID |}.

(** ** Classes of characters, for the statements about the tokenizer *)

(** A character of the text that is no white space, digit, decimal point,
    operator character or parenthesis. *)
Definition offending (c : ascii) : bool :=
  negb (isspace c || isdigit c || Ascii.eqb c "." || isOperator c
        || Ascii.eqb c "(" || Ascii.eqb c ")").

Definition valid (c : ascii) : bool := negb (offending c).

Fixpoint all_chars (P : ascii -> bool) (s : string) : bool :=
  match s with
  | EmptyString => true
  | String c rest => P c && all_chars P rest
  end.

(** ** Re-joining lexemes, for the round-trip statement *)

(** The specification's re-joining (section 8): the lexemes of the tokens,
    in order, with single spaces between them.  The program has no such
    function. *)
Definition rejoin (tokens : list Token) : string :=
  String.concat " " (map value tokens).

(** What the tokenizer appends when it starts with the flag [mayBeUnary]
    and meets no offending character. *)
Inductive emitted : bool -> list Token -> Prop :=
| emitted_nil (mayBeUnary : bool) : emitted mayBeUnary []
| emitted_number (mayBeUnary : bool) (c : ascii) (run : string) (rest : list Token) :
    isNumberChar c = true -> all_chars isNumberChar run = true ->
    emitted false rest ->
    emitted mayBeUnary (Number (String c run) :: rest)
| emitted_unary_minus (rest : list Token) :
    emitted true rest -> emitted true (Operator "~" :: rest)
| emitted_operator (mayBeUnary : bool) (c : ascii) (rest : list Token) :
    isOperator c = true ->
    (mayBeUnary = true -> c <> "-"%char /\ c <> "+"%char) ->
    emitted true rest ->
    emitted mayBeUnary (Operator (string1 c) :: rest)
| emitted_open (mayBeUnary : bool) (rest : list Token) :
    emitted true rest -> emitted mayBeUnary (Parenthesis "(" :: rest)
| emitted_close (mayBeUnary : bool) (rest : list Token) :
    emitted false rest -> emitted mayBeUnary (Parenthesis ")" :: rest).

(** What follows a lexeme in the re-joined text: nothing, or a space and
    the next lexemes. *)
Definition continuation (rest : list Token) : string :=
  match rest with
  | [] => ""
  | _ :: _ => String " " (rejoin rest)
  end.

(** ** The failure situations of the parser, for the statements about it *)

(** Some token has kind INVALID. *)
Definition has_invalid (tokens : list Token) : Prop :=
  exists t, t ∈ tokens /\ type t = INVALID.

(** A closing parenthesis (a PARENTHESIS token other than "(") is reached
    with no "(" on the operator stack. *)
Definition closes_unopened (tokens : list Token) : Prop :=
  exists (before : list Token) token after outputQueue operatorStack,
    tokens = before ++ token :: after
    /\ parse_loop before [] [] = Some (outputQueue, operatorStack)
    /\ type token = PARENTHESIS /\ value token <> "("
    /\ forall u, u ∈ operatorStack -> value u <> "(".

(** All tokens are consumed and a parenthesis is left on the operator stack. *)
Definition leaves_open (tokens : list Token) : Prop :=
  exists outputQueue operatorStack,
    parse_loop tokens [] [] = Some (outputQueue, operatorStack)
    /\ exists u, u ∈ operatorStack /\ type u = PARENTHESIS.

(** The tokens of the queue and those of the stack that are not "(". *)
Definition weight (outputQueue operatorStack : list Token) : nat :=
  length outputQueue + length (filter (fun u => value u <> "(") operatorStack).

(** No parenthesis in the queue, and no parenthesis but "(" on the stack. *)
Definition parentheses_held (outputQueue operatorStack : list Token) : Prop :=
  Forall (fun u => type u <> PARENTHESIS) outputQueue
  /\ Forall (fun u => type u = PARENTHESIS -> value u = "(") operatorStack.

(** ** Outcomes of handling an expression, for the statements about them *)

(** The texts that report an error condition to the caller. *)
Definition defined_error (result : string) : Prop :=
  Text result = InvalidExpression
  \/ runtime_error result = InsufficientOperandsUnary
  \/ (exists op, runtime_error result = InsufficientOperands op)
  \/ runtime_error result = DivisionByZero
  \/ runtime_error result = InvalidExpressionFormat.

(** The outcome is a finite double or a defined error. *)
Definition finite_or_defined_error (outcome : throws Result) : Prop :=
  match outcome with
  | inr (Printed evalResult) => is_finite evalResult = true
  | inr (Text result) => defined_error result
  | inl _ => False
  end.

(** The outcome is a double, finite or not, or a defined error. *)
Definition double_or_defined_error (outcome : throws Result) : Prop :=
  match outcome with
  | inr (Printed _) => True
  | inr (Text result) => defined_error result
  | inl _ => False
  end.

(** The lexemes of the operator tokens that the tokenizer emits. *)
Definition emitted_operator_lexeme (op : string) : Prop :=
  op = "~" \/ exists c, op = string1 c /\ isOperator c = true.

(** A token that the evaluator can process: a number that [stod] converts,
    an operator that the tokenizer emits, or a token that it skips. *)
Definition evaluable (token : Token) : Prop :=
  (type token = NUMBER -> exists d, stod (value token) = inr d)
  /\ (type token = OPERATOR -> emitted_operator_lexeme (value token)).

(** [n] characters '0'. *)
Fixpoint zeros (n : nat) : string :=
  match n with
  | O => ""
  | S n => String "0" (zeros n)
  end.

(** An exception thrown at an evaluable token is a [runtime_error] with one
    of the defined texts. *)
Definition defined_exception (e : exception) : Prop :=
  exists what, e = runtime_error what /\ defined_error what.

(** ** Further notions about the tokenizer *)

(** The flag [mayBeUnary] after a token is appended (lines 45, 54, 57). *)
Definition unary_after (token : Token) : bool :=
  match type token with
  | NUMBER => false
  | OPERATOR => true
  | PARENTHESIS => String.eqb (value token) "("
  | INVALID => false
  end.

(** A character that the tokenizer passes over without a token when
    [mayBeUnary] is set: white space or a unary plus. *)
Definition skipped (c : ascii) : bool := isspace c || Ascii.eqb c "+".

(** ** Further notions about the parser *)

(** The operator tokens are operators of the precedence table. *)
Definition known_operators (tokens : list Token) : Prop :=
  forall t, t ∈ tokens -> type t = OPERATOR -> is_Some (precedence !! value t).

(** What the operator stack holds when the operators are known: operators
    of the table and parentheses "(". *)
Definition stack_kinds (operatorStack : list Token) : Prop :=
  Forall (fun u => (type u = OPERATOR /\ (1 <= subscript precedence (value u))%Z)
                   \/ (type u = PARENTHESIS /\ value u = "(")) operatorStack.

(** The parenthesis depth stays at or above 0 and ends at 0. *)
Fixpoint balanced_from (depth : nat) (tokens : list Token) : bool :=
  match tokens with
  | [] => Nat.eqb depth 0
  | t :: rest =>
    match type t with
    | PARENTHESIS =>
      if String.eqb (value t) "(" then balanced_from (S depth) rest
      else match depth with
           | O => false
           | S depth' => balanced_from depth' rest
           end
    | _ => balanced_from depth rest
    end
  end.

(** The parentheses "(" on the stack. *)
Definition open_depth (operatorStack : list Token) : nat :=
  length (filter (fun u => type u = PARENTHESIS) operatorStack).

(** From the top of the stack downwards, an operator lying directly on an
    operator binds strictly tighter than it. *)
Fixpoint ascending (operatorStack : list Token) : Prop :=
  match operatorStack with
  | a :: (b :: _) as below =>
    (type a = PARENTHESIS \/ type b = PARENTHESIS
     \/ (subscript precedence (value b) < subscript precedence (value a))%Z)
    /\ ascending below
  | _ => True
  end.

(** What one iteration of the loop of [parse] does, case by case. *)
Inductive parse_step (token : Token) (q s : list Token) : list Token -> list Token -> Prop :=
| step_number :
    type token = NUMBER -> parse_step token q s (q ++ [token]) s
| step_operator (popped rest : list Token) :
    type token = OPERATOR -> s = popped ++ rest ->
    Forall (fun u => type u = OPERATOR
                     /\ (subscript precedence (value token)
                         <= subscript precedence (value u))%Z) popped ->
    (rest = [] \/ exists top below, rest = top :: below
        /\ (subscript precedence (value top) < subscript precedence (value token))%Z) ->
    parse_step token q s (q ++ popped) (token :: rest)
| step_open :
    type token = PARENTHESIS -> value token = "(" ->
    parse_step token q s q (token :: s)
| step_close (popped : list Token) (open : Token) (below : list Token) :
    type token = PARENTHESIS -> value token <> "(" ->
    s = popped ++ open :: below ->
    Forall (fun u => type u = OPERATOR) popped ->
    type open = PARENTHESIS -> value open = "(" ->
    parse_step token q s (q ++ popped) below.

(** ** Further notions about the evaluator *)

(** The tokens that the evaluator acts on. *)
Definition acted_on (token : Token) : Prop :=
  type token = NUMBER \/ type token = OPERATOR.

(** An operator token that the evaluator takes as binary. *)
Definition binary (token : Token) : Prop :=
  type token = OPERATOR /\ value token <> "~".

(** The exceptions of [std::stod]. *)
Definition stod_exception (e : exception) : Prop :=
  e = invalid_argument "stod" \/ e = out_of_range "stod".

(** ** Expressions in full parentheses *)

(** Expressions with every operation in its own parentheses. *)
Inductive Expression : Set :=
| Literal (lexeme : string)
| Negation (operand : Expression)
| Operation (op : ascii) (left_ right_ : Expression).

(** The lexemes are runs of digits and decimal points, the operations are
    the six operator characters. *)
Fixpoint well_formed (e : Expression) : Prop :=
  match e with
  | Literal lexeme => lexeme <> "" /\ all_chars isNumberChar lexeme = true
  | Negation operand => well_formed operand
  | Operation op left_ right_ =>
    isOperator op = true /\ well_formed left_ /\ well_formed right_
  end.

(** The expression as a text. *)
Fixpoint text (e : Expression) : string :=
  match e with
  | Literal lexeme => lexeme
  | Negation operand => "(-" +:+ text operand +:+ ")"
  | Operation op left_ right_ =>
    "(" +:+ text left_ +:+ string1 op +:+ text right_ +:+ ")"
  end.

(** The tokens of that text. *)
Fixpoint infix (e : Expression) : list Token :=
  match e with
  | Literal lexeme => [Number lexeme]
  | Negation operand =>
    [Parenthesis "("; Operator "~"] ++ infix operand ++ [Parenthesis ")"]
  | Operation op left_ right_ =>
    [Parenthesis "("] ++ infix left_ ++ [Operator (string1 op)] ++ infix right_
      ++ [Parenthesis ")"]
  end.

(** The expression in postfix order. *)
Fixpoint postfix (e : Expression) : list Token :=
  match e with
  | Literal lexeme => [Number lexeme]
  | Negation operand => postfix operand ++ [Operator "~"]
  | Operation op left_ right_ =>
    postfix left_ ++ postfix right_ ++ [Operator (string1 op)]
  end.

(** The value of the expression: operands from left to right, then the
    operation. *)
Fixpoint denote (pow : double -> double -> double) (e : Expression) : throws double :=
  match e with
  | Literal lexeme => stod lexeme
  | Negation operand =>
    a ← denote pow operand; mret (- a)%double
  | Operation op left_ right_ =>
    a ← denote pow left_;
    b ← denote pow right_;
    if (Ascii.eqb op "/" || Ascii.eqb op "%") && (b == S754_zero false)%double
    then throw DivisionByZero
    else applyOperator pow a b (string1 op)
  end.

(** ** Tactics *)

(** Case analysis over the 256 characters. *)
Ltac each_ascii c := destruct c as [[] [] [] [] [] [] [] []].

(** Membership in lists built with [++] and [::]. *)
Ltac membership :=
  repeat first [rewrite elem_of_app | rewrite elem_of_cons | rewrite elem_of_nil];
  tauto.

(** * Properties *)

(** ** The library functions on examples *)

(** The doubles written [of_Z n] below are the integers themselves. *)
Example of_Z_exact :
  Forall (fun n => is_ratio (of_Z n) (Z.abs n) 1 = true /\ is_finite (of_Z n) = true)
    [0; 2; 3; 4; 5; 8; 11; 14; 64; 512; -2]%Z.
Proof. repeat constructor. Qed.

Example stod_examples :
  stod "3" = inr (of_Z 3)
  /\ stod "3.14" = inr (of_ratio false 314 100)
  /\ stod "5." = inr (of_Z 5)
  /\ stod ".5" = inr (of_ratio false 1 2)
  /\ stod "1.2.3" = stod "1.2"
  /\ stod "." = throw (invalid_argument "stod")
  /\ stod "..5" = throw (invalid_argument "stod")
  /\ stod ("1" +:+ zeros 308) = inr (of_Z (10 ^ 308))
  /\ stod ("1" +:+ zeros 309) = throw (out_of_range "stod").
Proof. repeat split; vm_compute; reflexivity. Qed.

Example fmod_examples :
  fmod (of_Z 7) (of_Z 3) = of_Z 1
  /\ fmod (of_Z (-7)) (of_Z 3) = of_Z (-1)
  /\ fmod (of_Z 6) (of_Z 3) = S754_zero false
  /\ fmod (of_Z 5) (S754_zero false) = S754_nan.
Proof. repeat split; vm_compute; reflexivity. Qed.

(** ** The evaluator *)

Section EvaluatorProperties.

Variable pow : double -> double -> double.

Lemma evaluate_loop_app (before after : list Token) (stack : list double) :
  evaluate_loop pow (before ++ after) stack =
  evaluate_loop pow before stack ≫= evaluate_loop pow after.
Proof.
  revert stack. induction before as [|token before IH]; intros stack; simpl.
  - reflexivity.
  - destruct (evaluate_token pow token stack) as [e|stack']; simpl.
    + reflexivity.
    + apply IH.
Qed.

(** A throwing token ends the evaluation, whatever follows it. *)
Lemma evaluate_throws_at (before after : list Token) (token : Token)
    (stack : list double) (e : exception) :
  evaluate_loop pow before [] = inr stack ->
  evaluate_token pow token stack = throw e ->
  evaluate pow (before ++ token :: after) = throw e.
Proof.
  intros Hbefore Htoken. unfold evaluate.
  rewrite evaluate_loop_app, Hbefore. simpl. rewrite Htoken. reflexivity.
Qed.

Lemma evaluate_token_division_by_zero (token : Token) (right_ left_ : double)
    (rest : list double) :
  type token = OPERATOR ->
  value token = "/" \/ value token = "%" ->
  (right_ == S754_zero false)%double = true ->
  evaluate_token pow token (right_ :: left_ :: rest) = throw DivisionByZero.
Proof.
  intros Htype Hvalue Hzero. unfold evaluate_token.
  rewrite Htype, Hzero. destruct Hvalue as [-> | ->]; reflexivity.
Qed.

(** C6.  Whenever the evaluator reaches an operator [/] or [%] with at least
    two values on its stack and the value on top, which it pops as the right
    operand, equals 0.0, [evaluate] throws the division-by-zero error, and
    so returns no result, whatever precedes and follows in the postfix
    sequence.  In particular handling "5 / 0" and "5 % 0" ends with that
    error's text. *)
Theorem evaluate_zero_divisor_throws (before after : list Token) (token : Token)
    (right_ left_ : double) (rest : list double) :
  evaluate_loop pow before [] = inr (right_ :: left_ :: rest) ->
  type token = OPERATOR ->
  value token = "/" \/ value token = "%" ->
  (right_ == S754_zero false)%double = true ->
  evaluate pow (before ++ token :: after) = throw DivisionByZero
  /\ (forall d : double, evaluate pow (before ++ token :: after) <> inr d)
  /\ handleExpression pow "5 / 0" = inr (Text "Error: Attempted division/modulo by zero")
  /\ handleExpression pow "5 % 0" = inr (Text "Error: Attempted division/modulo by zero").
Proof.
  intros Hbefore Htype Hvalue Hzero.
  assert (Hthrow : evaluate pow (before ++ token :: after) = throw DivisionByZero).
  { eapply evaluate_throws_at; [exact Hbefore|].
    by apply evaluate_token_division_by_zero. }
  split; [exact Hthrow|]. split; [|split].
  - intros d Hd. rewrite Hthrow in Hd. discriminate Hd.
  - vm_compute. reflexivity.
  - vm_compute. reflexivity.
Qed.

Lemma evaluate_token_unary_empty (token : Token) :
  type token = OPERATOR -> value token = "~" ->
  evaluate_token pow token [] = throw InsufficientOperandsUnary.
Proof. intros Htype Hvalue. unfold evaluate_token. rewrite Htype, Hvalue. reflexivity. Qed.

Lemma evaluate_token_unary (token : Token) (operand : double) (rest : list double) :
  type token = OPERATOR -> value token = "~" ->
  evaluate_token pow token (operand :: rest) = inr ((- operand)%double :: rest).
Proof. intros Htype Hvalue. unfold evaluate_token. rewrite Htype, Hvalue. reflexivity. Qed.

Lemma evaluate_token_binary_short (token : Token) (stack : list double) :
  type token = OPERATOR -> value token <> "~" -> length stack < 2 ->
  evaluate_token pow token stack = throw (InsufficientOperands (value token)).
Proof.
  intros Htype Hvalue Hshort. unfold evaluate_token. rewrite Htype.
  apply String.eqb_neq in Hvalue. rewrite Hvalue.
  destruct stack as [|right_ [|left_ rest]]; simpl in Hshort; [reflexivity .. | lia].
Qed.

Lemma evaluate_token_binary (token : Token) (right_ left_ : double) (rest : list double) :
  type token = OPERATOR -> value token <> "~" ->
  evaluate_token pow token (right_ :: left_ :: rest) =
    if (String.eqb (value token) "/" || String.eqb (value token) "%")
       && (right_ == S754_zero false)%double
    then throw DivisionByZero
    else applyOperator pow left_ right_ (value token) ≫= fun r => mret (r :: rest).
Proof.
  intros Htype Hvalue. unfold evaluate_token. rewrite Htype.
  apply String.eqb_neq in Hvalue. rewrite Hvalue. reflexivity.
Qed.

(** C7.  At an operator token reached with the stack [stack]: the unary
    operator "~" on an empty stack throws the insufficient-operands error
    (and on a non-empty one replaces the top by its negation); any other
    operator with fewer than two values throws the insufficient-operands
    error naming it; and with two values or more the value on top of the
    stack, popped first, is the right operand and the one below it, popped
    second, the left operand, as shown on the subtraction. *)
Theorem evaluate_operand_arity (before after : list Token) (token : Token)
    (stack : list double) :
  evaluate_loop pow before [] = inr stack ->
  type token = OPERATOR ->
  (value token = "~" -> stack = [] ->
   evaluate pow (before ++ token :: after) = throw InsufficientOperandsUnary)
  /\ (value token = "~" -> forall operand rest, stack = operand :: rest ->
      evaluate_token pow token stack = inr ((- operand)%double :: rest))
  /\ (value token <> "~" -> length stack < 2 ->
      evaluate pow (before ++ token :: after) = throw (InsufficientOperands (value token)))
  /\ (value token <> "~" -> forall right_ left_ rest, stack = right_ :: left_ :: rest ->
      evaluate_token pow token stack =
        if (String.eqb (value token) "/" || String.eqb (value token) "%")
           && (right_ == S754_zero false)%double
        then throw DivisionByZero
        else applyOperator pow left_ right_ (value token) ≫= fun r => mret (r :: rest))
  /\ (forall right_ left_ rest,
      evaluate_token pow (Operator "-") (right_ :: left_ :: rest)
      = inr ((left_ - right_)%double :: rest)).
Proof.
  intros Hbefore Htype. repeat apply conj.
  - intros Hvalue ->. eapply evaluate_throws_at; [exact Hbefore|].
    by apply evaluate_token_unary_empty.
  - intros Hvalue operand rest ->. by apply evaluate_token_unary.
  - intros Hvalue Hshort. eapply evaluate_throws_at; [exact Hbefore|].
    by apply evaluate_token_binary_short.
  - intros Hvalue right_ left_ rest ->. by apply evaluate_token_binary.
  - reflexivity.
Qed.

(** C8.  When the loop of [evaluate] goes through the whole postfix sequence
    without an exception and leaves the stack [stack]: if [stack] does not
    hold exactly one value, [evaluate] throws the invalid-format error;
    if it holds exactly one, [evaluate] returns it.  The tokens of "3 4"
    leave two values, and the empty sequence leaves none. *)
Theorem evaluate_final_stack (postfix : list Token) (stack : list double) :
  evaluate_loop pow postfix [] = inr stack ->
  (length stack <> 1 -> evaluate pow postfix = throw InvalidExpressionFormat)
  /\ (forall top, stack = [top] -> evaluate pow postfix = inr top)
  /\ evaluate_loop pow (parse (tokenize "3 4")) [] = inr [of_Z 4; of_Z 3]
  /\ evaluate pow (parse (tokenize "3 4")) = throw InvalidExpressionFormat
  /\ handleExpression pow "3 4" = inr (Text "Error: Invalid expression format")
  /\ evaluate pow [] = throw InvalidExpressionFormat.
Proof.
  intros Hloop. unfold evaluate at 1 2. rewrite Hloop. simpl.
  split; [|split; [|repeat split; vm_compute; reflexivity]].
  - intros Hlen. destruct stack as [|top [|second rest]]; simpl in *;
      [reflexivity | lia | reflexivity].
  - intros top ->. reflexivity.
Qed.

(** C3.  With [mayBeUnary] set, a '-' at the head of the stream appends the
    operator token "~" and a '+' appends nothing; both leave [mayBeUnary]
    set.  The evaluator replaces the operand on top of the stack by its
    negation at "~".  So "-5 + 3" gives -2 and "5 - -3" gives 8. *)
Theorem unary_sign_handling :
  (forall rest tokens,
     tokenize_loop (String "-" rest) true tokens
     = tokenize_loop rest true (push_back tokens (Operator "~")))
  /\ (forall rest tokens,
     tokenize_loop (String "+" rest) true tokens = tokenize_loop rest true tokens)
  /\ (forall operand stack,
     evaluate_token pow (Operator "~") (operand :: stack)
     = inr ((- operand)%double :: stack))
  /\ tokenize "-5 + 3" = [Operator "~"; Number "5"; Operator "+"; Number "3"]
  /\ tokenize "5 - -3" = [Number "5"; Operator "-"; Operator "~"; Number "3"]
  /\ tokenize "+5" = [Number "5"]
  /\ handleExpression pow "-5 + 3" = inr (Printed (of_Z (-2)))
  /\ handleExpression pow "5 - -3" = inr (Printed (of_Z 8)).
Proof.
  repeat apply conj; try reflexivity; vm_compute; reflexivity.
Qed.

Lemma pop_by_precedence_pops (token top : Token) (outputQueue below : list Token) :
  (subscript precedence (value top) >= subscript precedence (value token))%Z ->
  pop_by_precedence token outputQueue (top :: below)
  = pop_by_precedence token (push_back outputQueue top) below.
Proof.
  intros Hge. simpl.
  destruct (Z.geb_spec (subscript precedence (value top))
              (subscript precedence (value token))) as [_|Hlt]; [reflexivity | lia].
Qed.

(** C1.  "3 + 4 * 2" is 11 and "(3 + 4) * 2" is 14; "2 ^ 3" is the
    library's power of 2 and 3, and "2 ^ 3 ^ 2" is the power of (the power
    of 2 and 3) and 2, grouped to the left.  So, provided the library's
    [pow] gives 8 for 2 to the 3 and 64 for 8 to the 2, "2 ^ 3" is 8 and
    "2 ^ 3 ^ 2" is 64, which is not 512.  The parser pops the operator on
    top of its stack to the output whenever its precedence is greater than
    or equal to that of the incoming operator; so two operators in a row
    with the second not binding tighter, "^" after "^" among them, group to
    the left. *)
Theorem pipeline_values_left_associative :
  pow (of_Z 2) (of_Z 3) = of_Z 8 ->
  pow (of_Z 8) (of_Z 2) = of_Z 64 ->
  handleExpression pow "3 + 4 * 2" = inr (Printed (of_Z 11))
  /\ handleExpression pow "(3 + 4) * 2" = inr (Printed (of_Z 14))
  /\ handleExpression pow "2 ^ 3" = inr (Printed (pow (of_Z 2) (of_Z 3)))
  /\ handleExpression pow "2 ^ 3 ^ 2"
     = inr (Printed (pow (pow (of_Z 2) (of_Z 3)) (of_Z 2)))
  /\ handleExpression pow "2 ^ 3" = inr (Printed (of_Z 8))
  /\ handleExpression pow "2 ^ 3 ^ 2" = inr (Printed (of_Z 64))
  /\ of_Z 64 <> of_Z 512
  /\ parse (tokenize "2 ^ 3 ^ 2")
     = [Number "2"; Number "3"; Operator "^"; Number "2"; Operator "^"]
  /\ (forall token top outputQueue below,
      (subscript precedence (value top) >= subscript precedence (value token))%Z ->
      pop_by_precedence token outputQueue (top :: below)
      = pop_by_precedence token (push_back outputQueue top) below)
  /\ (forall a b c op1 op2,
      (subscript precedence op1 >= subscript precedence op2)%Z ->
      parse [Number a; Operator op1; Number b; Operator op2; Number c]
      = [Number a; Number b; Operator op1; Number c; Operator op2]).
Proof.
  intros H23 H82. repeat apply conj.
  - vm_compute. reflexivity.
  - vm_compute. reflexivity.
  - vm_compute. reflexivity.
  - vm_compute. reflexivity.
  - vm_compute in H23 |- *. rewrite H23. reflexivity.
  - vm_compute in H23, H82 |- *. rewrite H23, H82. reflexivity.
  - vm_compute. discriminate.
  - vm_compute. reflexivity.
  - intros token top outputQueue below. apply pop_by_precedence_pops.
  - intros a b c op1 op2 Hge. unfold parse, parse_loop, parse_token. simpl.
    destruct (Z.geb_spec (subscript precedence op1) (subscript precedence op2))
      as [_|Hlt]; [reflexivity | lia].
Qed.

End EvaluatorProperties.

(** ** The tokenizer *)

Lemma tokenize_loop_unfold (c : ascii) (rest : string) (mayBeUnary : bool)
    (tokens : list Token) :
  tokenize_loop (String c rest) mayBeUnary tokens =
    if isspace c then tokenize_loop rest mayBeUnary tokens
    else if isNumberChar c then
      let '(number, rest') := read_number rest (string1 c) in
      tokenize_loop rest' false (push_back tokens (Number number))
    else if isOperator c then
      if Ascii.eqb c "-" && mayBeUnary then
        tokenize_loop rest true (push_back tokens (Operator "~"))
      else if Ascii.eqb c "+" && mayBeUnary then tokenize_loop rest true tokens
      else tokenize_loop rest true (push_back tokens (Operator (string1 c)))
    else if Ascii.eqb c "(" || Ascii.eqb c ")" then
      tokenize_loop rest (Ascii.eqb c "(") (push_back tokens (Parenthesis (string1 c)))
    else [Invalid c].
Proof.
  simpl. destruct (isspace c); [reflexivity|].
  destruct (isNumberChar c); [|reflexivity].
  generalize (string1 c) as number.
  induction rest as [|d rest IH]; intros number; simpl.
  - reflexivity.
  - destruct (isNumberChar d) eqn:Hd; [apply IH|].
    simpl. rewrite Hd. reflexivity.
Qed.

#[local] Arguments tokenize_loop : simpl never.

Lemma char_classes (c : ascii) :
  offending c = false ->
  isspace c = true \/ isNumberChar c = true \/ isOperator c = true
  \/ c = "("%char \/ c = ")"%char.
Proof. each_ascii c; vm_compute; intros H; try discriminate H; tauto. Qed.

Lemma offending_classes (c : ascii) :
  offending c = true ->
  isspace c = false /\ isNumberChar c = false /\ isOperator c = false
  /\ (Ascii.eqb c "(" || Ascii.eqb c ")") = false.
Proof. each_ascii c; vm_compute; intros H; try discriminate H; tauto. Qed.

Lemma append_empty_r (s : string) : s +:+ "" = s.
Proof. induction s as [|c s IH]; simpl; [reflexivity | by rewrite IH]. Qed.

Lemma append_assoc (s1 s2 s3 : string) : (s1 +:+ s2) +:+ s3 = s1 +:+ s2 +:+ s3.
Proof. induction s1 as [|c s1 IH]; simpl; [reflexivity | by rewrite IH]. Qed.

(** Reading a number inside a text that holds a character which is not of a
    number: the reading stops before that character. *)
Lemma read_number_stops (s : string) (c : ascii) (after number : string) :
  isNumberChar c = false ->
  exists run s', s = run +:+ s'
    /\ read_number (s +:+ String c after) number = (number +:+ run, s' +:+ String c after)
    /\ String.length s' <= String.length s
    /\ (forall P, all_chars P s = true -> all_chars P s' = true).
Proof.
  intros Hc. revert number. induction s as [|d s IH]; intros number.
  - exists "", "". simpl. rewrite Hc. rewrite append_empty_r. auto.
  - simpl. destruct (isNumberChar d) eqn:Hd.
    + destruct (IH (number +:+ string1 d)) as (run & s' & -> & Hread & Hlen & Hall).
      exists (String d run), s'. rewrite Hread, append_assoc. simpl.
      repeat split; auto.
      intros P HP. apply andb_true_iff in HP. apply Hall, HP.
    + exists "", (String d s). rewrite append_empty_r. simpl. auto.
Qed.

(** The first offending character ends the tokenizing, whatever was
    collected before it. *)
Lemma tokenize_loop_offending (before : string) (c : ascii) (after : string) :
  all_chars valid before = true -> offending c = true ->
  forall mayBeUnary tokens,
    tokenize_loop (before +:+ String c after) mayBeUnary tokens = [Invalid c].
Proof.
  intros Hbefore Hc.
  destruct (offending_classes c Hc) as (Hspace & Hnumber & Hoperator & Hparen).
  remember (String.length before) as n eqn:Hn.
  revert before Hbefore Hn. induction n as [n IH] using lt_wf_ind.
  intros [|b before] Hbefore Hn mayBeUnary tokens; simpl String.append;
    rewrite tokenize_loop_unfold.
  - by rewrite Hspace, Hnumber, Hoperator, Hparen.
  - simpl in Hbefore, Hn. apply andb_true_iff in Hbefore as [Hb Hbefore].
    assert (Hshort : String.length before < n) by lia.
    assert (Hvalid : offending b = false) by (by apply negb_true_iff).
    destruct (isspace b) eqn:Hbspace; [by eapply IH|].
    destruct (isNumberChar b) eqn:Hbnum.
    + destruct (read_number_stops before c after (string1 b) Hnumber)
        as (run & s' & _ & -> & Hlen & Hall).
      eapply IH; [| by apply Hall | reflexivity]. lia.
    + destruct (isOperator b) eqn:Hbop.
      * destruct (_ && _); [|destruct (_ && _)]; by eapply IH.
      * destruct (char_classes b Hvalid) as [H|[H|[H|[H|H]]]];
          try congruence; subst b; by eapply IH.
Qed.

Lemma first_offending (s : string) :
  (exists c, In c (list_ascii_of_string s) /\ offending c = true) ->
  exists before c after,
    s = before +:+ String c after /\ all_chars valid before = true /\ offending c = true.
Proof.
  induction s as [|d s IH]; intros (c & Hin & Hc); simpl in Hin; [contradiction|].
  destruct (offending d) eqn:Hd.
  - exists "", d, s. auto.
  - destruct IH as (before & c' & after & -> & Hbefore & Hc').
    + destruct Hin as [-> | Hin]; [congruence | eauto].
    + exists (String d before), c', after. simpl. unfold valid at 1. rewrite Hd. auto.
Qed.

(** C4.  A text that holds an offending character (one that is no white
    space, digit, decimal point, operator character or parenthesis) is
    tokenized to exactly one token, of kind INVALID, whose lexeme is the
    first such character of the text; the tokens collected before it are
    dropped.  So "3 @ 4" gives the one token '@'. *)
Theorem tokenize_offending_character (expression : string) :
  (exists c, In c (list_ascii_of_string expression) /\ offending c = true) ->
  (exists before c after,
     expression = before +:+ String c after
     /\ all_chars valid before = true /\ offending c = true
     /\ tokenize expression = [Invalid c])
  /\ tokenize "3 @ 4" = [Invalid "@"].
Proof.
  intros H. split; [|reflexivity].
  destruct (first_offending expression H) as (before & c & after & -> & Hbefore & Hc).
  exists before, c, after. repeat split; auto.
  by apply tokenize_loop_offending.
Qed.

Lemma number_char_classes (c : ascii) :
  isNumberChar c = true -> isspace c = false.
Proof. each_ascii c; vm_compute; intros H; try discriminate H; reflexivity. Qed.

Lemma operator_char_classes (c : ascii) :
  isOperator c = true -> isspace c = false /\ isNumberChar c = false.
Proof. each_ascii c; vm_compute; intros H; try discriminate H; auto. Qed.

Lemma all_chars_app (P : ascii -> bool) (s1 s2 : string) :
  all_chars P (s1 +:+ s2) = all_chars P s1 && all_chars P s2.
Proof. induction s1 as [|c s1 IH]; simpl; [done|]. by rewrite IH, andb_assoc. Qed.

Lemma length_append (s1 s2 : string) :
  String.length (s1 +:+ s2) = String.length s1 + String.length s2.
Proof. induction s1 as [|c s1 IH]; simpl; [done|]. by rewrite IH. Qed.

(** The inner loop reads the longest run of number characters. *)
Lemma read_number_run (s number : string) :
  exists run rest,
    s = run +:+ rest
    /\ read_number s number = (number +:+ run, rest)
    /\ all_chars isNumberChar run = true.
Proof.
  revert number. induction s as [|d s IH]; intros number; simpl.
  - exists "", "". by rewrite !append_empty_r.
  - destruct (isNumberChar d) eqn:Hd.
    + destruct (IH (number +:+ string1 d)) as (run & rest & -> & -> & Hrun).
      exists (String d run), rest. rewrite append_assoc. simpl. by rewrite Hd.
    + exists "", (String d s). by rewrite !append_empty_r.
Qed.

Lemma read_number_app (run tail number : string) :
  all_chars isNumberChar run = true ->
  (tail = "" \/ exists d rest, tail = String d rest /\ isNumberChar d = false) ->
  read_number (run +:+ tail) number = (number +:+ run, tail).
Proof.
  intros Hrun Htail. revert number. induction run as [|c run IH]; intros number; simpl.
  - rewrite append_empty_r. destruct Htail as [-> | (d & rest & -> & Hd)]; simpl; [done|].
    by rewrite Hd.
  - simpl in Hrun. apply andb_true_iff in Hrun as [Hc Hrun]. rewrite Hc, IH by done.
    by rewrite append_assoc.
Qed.

Lemma tokenize_loop_emitted (s : string) :
  all_chars valid s = true ->
  forall mayBeUnary tokens,
    exists new, tokenize_loop s mayBeUnary tokens = tokens ++ new /\ emitted mayBeUnary new.
Proof.
  remember (String.length s) as n eqn:Hn. revert s Hn.
  induction n as [n IH] using lt_wf_ind.
  intros [|c s] Hn Hvalid mayBeUnary tokens.
  { exists []. rewrite app_nil_r. split; [done | constructor]. }
  simpl in Hn, Hvalid. apply andb_true_iff in Hvalid as [Hc Hvalid].
  apply negb_true_iff in Hc. rewrite tokenize_loop_unfold.
  assert (Hrec : forall mayBeUnary tokens, exists new,
             tokenize_loop s mayBeUnary tokens = tokens ++ new /\ emitted mayBeUnary new).
  { apply (IH (String.length s)); [lia | done | done]. }
  assert (Hpush : forall (token : Token) (new : list Token),
             push_back tokens token ++ new = tokens ++ token :: new).
  { intros token new. unfold push_back. by rewrite <- app_assoc. }
  destruct (isspace c) eqn:Hspace; [apply Hrec|].
  destruct (isNumberChar c) eqn:Hnum.
  { destruct (read_number_run s (string1 c)) as (run & rest & -> & -> & Hrun).
    rewrite all_chars_app in Hvalid. apply andb_true_iff in Hvalid as [_ Hrest].
    destruct (IH (String.length rest)) with (s := rest) (mayBeUnary := false)
      (tokens := push_back tokens (Number (string1 c +:+ run))) as (new & -> & Hnew);
      [rewrite length_append in Hn; lia | done | done |].
    exists (Number (String c run) :: new). split; [apply Hpush | by constructor]. }
  destruct (isOperator c) eqn:Hop.
  { destruct (Ascii.eqb_spec c "-") as [-> | Hminus]; simpl.
    - destruct mayBeUnary; simpl.
      + destruct (Hrec true (push_back tokens (Operator "~"))) as (new & -> & Hnew).
        exists (Operator "~" :: new). split; [apply Hpush | by constructor].
      + destruct (Hrec true (push_back tokens (Operator (string1 "-")))) as (new & -> & Hnew).
        exists (Operator (string1 "-") :: new). split; [apply Hpush|].
        by constructor.
    - destruct (Ascii.eqb_spec c "+") as [-> | Hplus]; simpl.
      + destruct mayBeUnary; simpl.
        * apply Hrec.
        * destruct (Hrec true (push_back tokens (Operator (string1 "+")))) as (new & -> & Hnew).
          exists (Operator (string1 "+") :: new). split; [apply Hpush|].
          by constructor.
      + destruct (Hrec true (push_back tokens (Operator (string1 c)))) as (new & -> & Hnew).
        exists (Operator (string1 c) :: new). split; [apply Hpush|].
        by constructor. }
  destruct (char_classes c Hc) as [H | [H | [H | [-> | ->]]]]; try congruence; simpl.
  - destruct (Hrec true (push_back tokens (Parenthesis (string1 "(")))) as (new & -> & Hnew).
    exists (Parenthesis "(" :: new). split; [apply Hpush | by constructor].
  - destruct (Hrec false (push_back tokens (Parenthesis (string1 ")")))) as (new & -> & Hnew).
    exists (Parenthesis ")" :: new). split; [apply Hpush | by constructor].
Qed.

(** Either every character is valid or there is a first offending one. *)
Lemma valid_or_offending (s : string) :
  all_chars valid s = true
  \/ exists before c after,
       s = before +:+ String c after /\ all_chars valid before = true
       /\ offending c = true.
Proof.
  induction s as [|d s IH]; simpl; [by left|].
  destruct (offending d) eqn:Hd.
  - right. by exists "", d, s.
  - unfold valid at 1. rewrite Hd. simpl.
    destruct IH as [H | (before & c & after & -> & Hbefore & Hc)]; [by left|].
    right. exists (String d before), c, after. simpl. unfold valid at 1. by rewrite Hd.
Qed.

(** The shape of what [tokenize] returns. *)
Lemma tokenize_shape (expression : string) :
  (exists c, offending c = true /\ tokenize expression = [Invalid c])
  \/ emitted true (tokenize expression).
Proof.
  destruct (valid_or_offending expression)
    as [Hvalid | (before & c & after & -> & Hbefore & Hc)].
  - right. unfold tokenize.
    by destruct (tokenize_loop_emitted expression Hvalid true []) as (new & -> & Hnew).
  - left. exists c. split; [done|]. by apply tokenize_loop_offending.
Qed.

Lemma rejoin_cons (token : Token) (rest : list Token) :
  rejoin (token :: rest) = value token +:+ continuation rest.
Proof.
  unfold rejoin. destruct rest as [|next rest]; simpl.
  - by rewrite append_empty_r.
  - reflexivity.
Qed.

Lemma tokenize_loop_continuation (rest : list Token) (mayBeUnary : bool)
    (tokens : list Token) :
  tokenize_loop (continuation rest) mayBeUnary tokens
  = tokenize_loop (rejoin rest) mayBeUnary tokens.
Proof. destruct rest; [reflexivity|]. unfold continuation. by rewrite tokenize_loop_unfold. Qed.

Lemma continuation_stops (rest : list Token) :
  continuation rest = ""
  \/ exists d s, continuation rest = String d s /\ isNumberChar d = false.
Proof. destruct rest; [by left|]. right. by eexists _, _. Qed.

(** Tokenizing the re-joined lexemes gives the tokens back, if none of them
    is the unary minus. *)
Lemma tokenize_loop_rejoin (mayBeUnary : bool) (new : list Token) :
  emitted mayBeUnary new ->
  (forall t, t ∈ new -> value t <> "~") ->
  forall tokens, tokenize_loop (rejoin new) mayBeUnary tokens = tokens ++ new.
Proof.
  induction 1 as [mu | mu c run rest Hc Hrun _ IH | rest _ _ | mu c rest Hc Hsign _ IH
                 | mu rest _ IH | mu rest _ IH]; intros Hminus tokens.
  - by rewrite app_nil_r.
  - rewrite rejoin_cons. simpl. rewrite tokenize_loop_unfold.
    rewrite (number_char_classes c Hc), Hc.
    rewrite (read_number_app run (continuation rest) (string1 c) Hrun (continuation_stops rest)).
    rewrite tokenize_loop_continuation, IH.
    + unfold push_back. by rewrite <- app_assoc.
    + intros t Ht. apply Hminus. by right.
  - exfalso. apply (Hminus (Operator "~")); [by left | done].
  - rewrite rejoin_cons. simpl. rewrite tokenize_loop_unfold.
    destruct (operator_char_classes c Hc) as [-> ->]. rewrite Hc.
    assert (Ascii.eqb c "-" && mu = false) as ->.
    { destruct mu; [|apply andb_false_r]. destruct (Hsign eq_refl) as [Hne _].
      apply Ascii.eqb_neq in Hne. by rewrite Hne. }
    assert (Ascii.eqb c "+" && mu = false) as ->.
    { destruct mu; [|apply andb_false_r]. destruct (Hsign eq_refl) as [_ Hne].
      apply Ascii.eqb_neq in Hne. by rewrite Hne. }
    rewrite tokenize_loop_continuation, IH.
    + unfold push_back. by rewrite <- app_assoc.
    + intros t Ht. apply Hminus. by right.
  - rewrite rejoin_cons. simpl. rewrite tokenize_loop_unfold. simpl.
    rewrite tokenize_loop_continuation, IH.
    + unfold push_back. by rewrite <- app_assoc.
    + intros t Ht. apply Hminus. by right.
  - rewrite rejoin_cons. simpl. rewrite tokenize_loop_unfold. simpl.
    rewrite tokenize_loop_continuation, IH.
    + unfold push_back. by rewrite <- app_assoc.
    + intros t Ht. apply Hminus. by right.
Qed.

(** C9, amended.  When [tokenize] returns no INVALID token and no
    unary-minus token "~", tokenizing the lexemes of its tokens re-joined
    with single spaces gives the same tokens again, kinds and lexemes, in
    the same order. *)
Theorem tokenize_rejoin_roundtrip (expression : string) :
  (forall t, t ∈ tokenize expression -> type t <> INVALID) ->
  (forall t, t ∈ tokenize expression -> value t <> "~") ->
  tokenize (rejoin (tokenize expression)) = tokenize expression.
Proof.
  intros Hvalid Hminus.
  destruct (tokenize_shape expression) as [(c & _ & Hc) | Hshape].
  - exfalso. apply (Hvalid (Invalid c)); [|done]. rewrite Hc. by left.
  - unfold tokenize at 1. by rewrite (tokenize_loop_rejoin true _ Hshape Hminus).
Qed.

(** C9 as stated fails on "-5": its tokens re-join to "~ 5", which the
    tokenizer rejects at '~'. *)
Lemma unary_minus_not_retokenized :
  (forall t, t ∈ tokenize "-5" -> type t <> INVALID)
  /\ rejoin (tokenize "-5") = "~ 5"
  /\ tokenize (rejoin (tokenize "-5")) = [Invalid "~"]
  /\ tokenize (rejoin (tokenize "-5")) <> tokenize "-5".
Proof.
  split; [|done].
  intros t Ht. repeat (apply elem_of_cons in Ht as [-> | Ht]; [done|]).
  by apply elem_of_nil in Ht.
Qed.

(** ** The parser *)

Lemma precedence_lookup (key : string) (level : Z) :
  precedence !! key = Some level -> (1 <= level)%Z /\ key <> "(".
Proof.
  intros H. apply elem_of_list_to_map_2 in H.
  repeat (apply elem_of_cons in H as [H|H]; [inversion H; split; [lia | discriminate]|]).
  by apply elem_of_nil in H.
Qed.

Lemma subscript_known (key : string) :
  is_Some (precedence !! key) -> (1 <= subscript precedence key)%Z.
Proof.
  intros [level H]. unfold subscript. rewrite H. simpl.
  by apply (precedence_lookup key).
Qed.

Lemma subscript_open_paren (open : Token) :
  value open = "(" -> subscript precedence (value open) = 0%Z.
Proof. intros ->. reflexivity. Qed.

Lemma subscript_insert_default (m : gmap string Z) (key key' : string) :
  subscript (<[key := subscript m key]> m) key' = subscript m key'.
Proof.
  unfold subscript. destruct (decide (key = key')) as [->|Hne].
  - by rewrite lookup_insert_eq.
  - by rewrite lookup_insert_ne.
Qed.

Lemma pop_by_precedence_keeps_open (token open : Token)
    (outputQueue above below : list Token) :
  (1 <= subscript precedence (value token))%Z -> value open = "(" ->
  exists popped above' : list Token,
    above = popped ++ above'
    /\ pop_by_precedence token outputQueue (above ++ open :: below)
       = (outputQueue ++ popped, above' ++ open :: below).
Proof.
  intros Htoken Hopen. revert outputQueue.
  induction above as [|top above IH]; intros outputQueue; simpl.
  - exists [], []. rewrite (subscript_open_paren open Hopen).
    destruct (Z.geb_spec 0 (subscript precedence (value token))); [lia|].
    split; [reflexivity|]. rewrite app_nil_r. reflexivity.
  - destruct (_ >=? _)%Z.
    + destruct (IH (push_back outputQueue top)) as (popped & above' & -> & ->).
      exists (top :: popped), above'. unfold push_back. by rewrite <- app_assoc.
    + exists [], (top :: above). by rewrite !app_nil_r.
Qed.

(** *** The two inner loops *)

Lemma pop_by_precedence_split (token : Token) (outputQueue operatorStack : list Token) :
  exists popped rest : list Token,
    operatorStack = popped ++ rest
    /\ pop_by_precedence token outputQueue operatorStack = (outputQueue ++ popped, rest).
Proof.
  revert outputQueue. induction operatorStack as [|top below IH]; intros outputQueue; simpl.
  - exists [], []. by rewrite !app_nil_r.
  - destruct (_ >=? _)%Z.
    + destruct (IH (push_back outputQueue top)) as (popped & rest & -> & ->).
      exists (top :: popped), rest. unfold push_back. by rewrite <- app_assoc.
    + exists [], (top :: below). by rewrite !app_nil_r.
Qed.

Lemma pop_to_open_paren_split (outputQueue operatorStack : list Token) :
  exists popped rest : list Token,
    operatorStack = popped ++ rest
    /\ pop_to_open_paren outputQueue operatorStack = (outputQueue ++ popped, rest)
    /\ Forall (fun u => value u <> "(") popped
    /\ (rest = [] \/ exists top below, rest = top :: below /\ value top = "(").
Proof.
  revert outputQueue. induction operatorStack as [|top below IH]; intros outputQueue; simpl.
  - exists [], []. rewrite !app_nil_r. auto.
  - destruct (String.eqb_spec (value top) "(") as [Heq|Hne]; simpl.
    + exists [], (top :: below). rewrite !app_nil_r. eauto 8.
    + destruct (IH (push_back outputQueue top)) as (popped & rest & -> & -> & Hpopped & Hrest).
      exists (top :: popped), rest. unfold push_back. rewrite <- app_assoc. auto.
Qed.

(** A closing parenthesis fails exactly when no "(" is on the stack. *)
Lemma parse_token_close_fails (token : Token) (outputQueue operatorStack : list Token) :
  type token = PARENTHESIS -> value token <> "(" ->
  parse_token token outputQueue operatorStack = None
  <-> forall u, u ∈ operatorStack -> value u <> "(".
Proof.
  intros Htype Hvalue. unfold parse_token. rewrite Htype.
  apply String.eqb_neq in Hvalue. rewrite Hvalue.
  destruct (pop_to_open_paren_split outputQueue operatorStack)
    as (popped & rest & -> & -> & Hpopped & Hrest).
  rewrite Forall_forall in Hpopped.
  destruct Hrest as [-> | (top & below & -> & Htop)].
  - split; [|done]. intros _ u Hu. rewrite app_nil_r in Hu. by apply Hpopped.
  - rewrite Htop. simpl. split; [done|]. intros H. exfalso.
    apply (H top); [|done]. apply elem_of_app. right. by left.
Qed.

(** *** The loop over the tokens *)

Lemma parse_loop_app (before after : list Token) (outputQueue operatorStack : list Token) :
  parse_loop (before ++ after) outputQueue operatorStack
  = match parse_loop before outputQueue operatorStack with
    | Some (outputQueue', operatorStack') => parse_loop after outputQueue' operatorStack'
    | None => None
    end.
Proof.
  revert outputQueue operatorStack.
  induction before as [|token before IH]; intros outputQueue operatorStack; simpl.
  - reflexivity.
  - destruct (parse_token token outputQueue operatorStack) as [[q s]|]; [apply IH | reflexivity].
Qed.

Lemma parse_token_fails (token : Token) (outputQueue operatorStack : list Token) :
  parse_token token outputQueue operatorStack = None ->
  type token = INVALID
  \/ (type token = PARENTHESIS /\ value token <> "("
      /\ forall u, u ∈ operatorStack -> value u <> "(").
Proof.
  intros H. destruct (type token) eqn:Htype.
  - unfold parse_token in H. rewrite Htype in H. discriminate H.
  - unfold parse_token in H. rewrite Htype in H.
    destruct (pop_by_precedence _ _ _). discriminate H.
  - right. destruct (String.eqb_spec (value token) "(") as [Heq|Hne].
    + unfold parse_token in H. rewrite Htype, Heq in H. discriminate H.
    + split; [done|]. split; [done|]. by apply (parse_token_close_fails token outputQueue).
  - by left.
Qed.

Lemma parse_loop_fails (tokens outputQueue operatorStack : list Token) :
  parse_loop tokens outputQueue operatorStack = None ->
  has_invalid tokens
  \/ exists (before : list Token) token after outputQueue' operatorStack',
       tokens = before ++ token :: after
       /\ parse_loop before outputQueue operatorStack = Some (outputQueue', operatorStack')
       /\ type token = PARENTHESIS /\ value token <> "("
       /\ forall u, u ∈ operatorStack' -> value u <> "(".
Proof.
  revert outputQueue operatorStack.
  induction tokens as [|token tokens IH]; intros outputQueue operatorStack; simpl; [done|].
  destruct (parse_token token outputQueue operatorStack) as [[q s]|] eqn:Htoken.
  - intros H. destruct (IH q s H) as [(t & Hin & Ht) | (before & t & after & q' & s' & -> & Hbefore & Hrest)].
    + left. exists t. split; [by right | done].
    + right. exists (token :: before), t, after, q', s'. simpl. rewrite Htoken. auto.
  - intros _. destruct (parse_token_fails _ _ _ Htoken) as [Hinv | (Htype & Hvalue & Hstack)].
    + left. exists token. split; [by left | done].
    + right. exists [], token, tokens, outputQueue, operatorStack. auto.
Qed.

Lemma parse_loop_invalid (tokens outputQueue operatorStack : list Token) :
  has_invalid tokens -> parse_loop tokens outputQueue operatorStack = None.
Proof.
  intros (t & Hin & Ht). revert outputQueue operatorStack.
  induction tokens as [|token tokens IH]; intros outputQueue operatorStack.
  - by apply elem_of_nil in Hin.
  - simpl. apply elem_of_cons in Hin as [<- | Hin].
    + unfold parse_token. by rewrite Ht.
    + destruct (parse_token token outputQueue operatorStack) as [[q s]|]; [by apply IH | done].
Qed.

(** *** The final sweep *)

Lemma parse_sweep_fails (outputQueue operatorStack : list Token) :
  parse_sweep outputQueue operatorStack = None
  <-> exists u, u ∈ operatorStack /\ type u = PARENTHESIS.
Proof.
  revert outputQueue. induction operatorStack as [|top below IH]; intros outputQueue; simpl.
  - split; [done|]. intros (u & Hu & _). by apply elem_of_nil in Hu.
  - destruct (type top) eqn:Htop;
      try (rewrite IH; split;
           [ intros (u & Hu & Htype); exists u; split; [by right | done]
           | intros (u & Hu & Htype); apply elem_of_cons in Hu as [-> | Hu];
             [congruence | by exists u] ]).
    split; [|done]. intros _. exists top. split; [by left | done].
Qed.

Lemma parse_sweep_returns (outputQueue operatorStack sorted : list Token) :
  parse_sweep outputQueue operatorStack = Some sorted ->
  sorted = outputQueue ++ operatorStack.
Proof.
  revert outputQueue. induction operatorStack as [|top below IH]; intros outputQueue; simpl.
  - intros [= <-]. by rewrite !app_nil_r.
  - destruct (type top); try discriminate;
      intros H; apply IH in H; rewrite H; unfold push_back; by rewrite <- app_assoc.
Qed.

(** *** What the failure situations do *)

Lemma closes_unopened_fails (tokens : list Token) :
  closes_unopened tokens -> parse_loop tokens [] [] = None.
Proof.
  intros (before & token & after & q & s & -> & Hbefore & Htype & Hvalue & Hstack).
  rewrite parse_loop_app, Hbefore. simpl.
  by rewrite (proj2 (parse_token_close_fails token q s Htype Hvalue) Hstack).
Qed.

Lemma parse_completes (tokens outputQueue operatorStack sorted : list Token) :
  parse_loop tokens [] [] = Some (outputQueue, operatorStack) ->
  parse_sweep outputQueue operatorStack = Some sorted ->
  ~ (has_invalid tokens \/ closes_unopened tokens \/ leaves_open tokens).
Proof.
  intros Hloop Hsweep [H | [H | (q & s & Hloop' & H)]].
  - apply (parse_loop_invalid tokens [] []) in H. congruence.
  - apply closes_unopened_fails in H. congruence.
  - rewrite Hloop in Hloop'. injection Hloop' as <- <-.
    apply (proj2 (parse_sweep_fails outputQueue operatorStack)) in H. congruence.
Qed.

(** *** Nothing but parentheses is dropped *)

Lemma filter_length_le (l : list Token) :
  length (filter (fun u => value u <> "(") l) <= length l.
Proof. apply length_filter. Qed.

Lemma parse_token_weight (token : Token) (q s q' s' : list Token) :
  parse_token token q s = Some (q', s') ->
  weight q s <= weight q' s'
  /\ (type token = NUMBER \/ (type token = OPERATOR /\ value token <> "(") ->
      weight q s < weight q' s').
Proof.
  unfold parse_token, weight. destruct (type token) eqn:Htype.
  - intros [= <- <-]. unfold push_back. rewrite length_app. simpl. lia.
  - destruct (pop_by_precedence_split token q s) as (popped & rest & -> & ->).
    intros [= <- <-]. rewrite filter_app, !length_app, filter_cons.
    pose proof (filter_length_le popped).
    split.
    + destruct (decide _); simpl; lia.
    + intros [? | [_ Hvalue]]; [done|]. rewrite decide_True by done. simpl. lia.
  - destruct (String.eqb_spec (value token) "(") as [Heq|Hne].
    + intros [= <- <-]. rewrite filter_cons, decide_False by (by intros H; apply H).
      split; [lia|]. intros [? | [? _]]; done.
    + destruct (pop_to_open_paren_split q s)
        as (popped & rest & -> & -> & Hpopped & [-> | (top & below & -> & Htop)]);
        [done|]. rewrite Htop. simpl. intros [= <- <-].
      rewrite filter_app, filter_cons, decide_False by (by intros H; apply H).
      rewrite !length_app.
      assert (filter (fun u => value u <> "(") popped = popped) as ->.
      { clear -Hpopped. induction Hpopped as [|u l Hu _ IH]; [done|].
        by rewrite filter_cons, decide_True, IH. }
      split; [lia|]. intros [? | [? _]]; done.
  - done.
Qed.

Lemma parse_loop_weight (tokens q s q' s' : list Token) :
  parse_loop tokens q s = Some (q', s') ->
  weight q s <= weight q' s'
  /\ forall t, t ∈ tokens ->
       type t = NUMBER \/ (type t = OPERATOR /\ value t <> "(") ->
       weight q s < weight q' s'.
Proof.
  revert q s. induction tokens as [|token tokens IH]; intros q s; simpl.
  - intros [= <- <-]. split; [lia|]. intros t Ht. by apply elem_of_nil in Ht.
  - destruct (parse_token token q s) as [[q1 s1]|] eqn:Htoken; [|done].
    intros Hloop. destruct (parse_token_weight _ _ _ _ _ Htoken) as [Hle Hlt].
    destruct (IH _ _ Hloop) as [Hle' Hlt']. split; [lia|].
    intros t Ht Hkind. apply elem_of_cons in Ht as [-> | Ht].
    + specialize (Hlt Hkind). lia.
    + specialize (Hlt' t Ht Hkind). lia.
Qed.

Lemma parse_loop_parentheses (tokens s : list Token) :
  Forall (fun t => type t = PARENTHESIS) tokens ->
  Forall (fun u => type u = PARENTHESIS /\ value u = "(") s ->
  match parse_loop tokens [] s with
  | Some (q', s') => q' = [] /\ Forall (fun u => type u = PARENTHESIS /\ value u = "(") s'
  | None => True
  end.
Proof.
  intros Htokens. revert s. induction Htokens as [|token tokens Htoken _ IH]; intros s Hs; simpl.
  - done.
  - unfold parse_token. rewrite Htoken.
    destruct (String.eqb_spec (value token) "(") as [Heq|Hne].
    + apply IH. by constructor.
    + destruct Hs as [|top below [_ Htop] Hbelow]; simpl; [done|].
      rewrite Htop. simpl. rewrite Htop. simpl. by apply IH.
Qed.

(** C5, amended.  For tokens whose operators are not spelled "(", as all
    that the tokenizer emits: [parse] returns an empty sequence exactly when
    some token is INVALID, or a closing parenthesis is reached with no "("
    on the operator stack, or a parenthesis is left on the stack after the
    last token, or the tokens are parentheses only (none, or as in "()").
    So "(3 + 4" and "3 + 4)" both give the empty sequence. *)
Theorem parse_empty_characterised (tokens : list Token) :
  (forall t, t ∈ tokens -> type t = OPERATOR -> value t <> "(") ->
  (parse tokens = [] <->
     has_invalid tokens \/ closes_unopened tokens \/ leaves_open tokens
     \/ Forall (fun t => type t = PARENTHESIS) tokens)
  /\ parse (tokenize "(3 + 4") = [] /\ leaves_open (tokenize "(3 + 4")
  /\ parse (tokenize "3 + 4)") = [] /\ closes_unopened (tokenize "3 + 4)").
Proof.
  intros Hops. split; [|split; [done|split; [|split; [done|]]]].
  - unfold parse. split.
    + destruct (parse_loop tokens [] []) as [[q s]|] eqn:Hloop.
      * destruct (parse_sweep q s) as [sorted|] eqn:Hsweep.
        -- intros ->. apply parse_sweep_returns in Hsweep.
           symmetry in Hsweep. apply app_eq_nil in Hsweep as [-> ->].
           right; right; right. apply Forall_forall. intros t Ht.
           destruct (parse_loop_weight _ _ _ _ _ Hloop) as [_ Hlt].
           destruct (type t) eqn:Htype; [| |done|].
           ++ specialize (Hlt t Ht (or_introl Htype)). unfold weight in Hlt. simpl in Hlt. lia.
           ++ specialize (Hlt t Ht (or_intror (conj Htype (Hops t Ht Htype)))).
              unfold weight in Hlt. simpl in Hlt. lia.
           ++ assert (Hinv : has_invalid tokens) by (by exists t).
              apply (parse_loop_invalid tokens [] []) in Hinv. congruence.
        -- intros _. right; right; left. exists q, s. split; [done|].
           by apply (proj1 (parse_sweep_fails q s)).
      * intros _. destruct (parse_loop_fails _ _ _ Hloop) as [H|H]; [by left|].
        right; left. exact H.
    + intros [H | [H | [(q & s & Hloop & H) | H]]].
      * by rewrite (parse_loop_invalid tokens [] [] H).
      * by rewrite (closes_unopened_fails tokens H).
      * rewrite Hloop. apply (proj2 (parse_sweep_fails q s)) in H. by rewrite H.
      * pose proof (parse_loop_parentheses tokens [] H (List.Forall_nil _)) as Hp.
        destruct (parse_loop tokens [] []) as [[q s]|]; [|done].
        destruct Hp as [-> Hs]. destruct Hs as [|top below [Htop _] _]; simpl; [done|].
        by rewrite Htop.
  - exists [Number "3"; Number "4"], [Operator "+"; Parenthesis "("].
    split; [done|]. exists (Parenthesis "("). split; [|done].
    apply elem_of_cons. right. by left.
  - exists [Number "3"; Operator "+"; Number "4"], (Parenthesis ")"), [],
      [Number "3"; Number "4"], [Operator "+"].
    split; [done|]. split; [done|]. split; [done|]. split; [done|].
    intros u Hu. apply list_elem_of_singleton in Hu as ->. done.
Qed.

(** C5 as stated fails on "()": the output is empty and none of the three
    failure situations arises. *)
Lemma parse_empty_parentheses :
  parse (tokenize "()") = []
  /\ ~ (has_invalid (tokenize "()") \/ closes_unopened (tokenize "()")
        \/ leaves_open (tokenize "()")).
Proof.
  split; [done|].
  by apply (parse_completes (tokenize "()") [] [] []).
Qed.

(** *** Parentheses never reach the output *)

Lemma pop_by_precedence_popped (token : Token) (outputQueue operatorStack : list Token) :
  exists popped rest : list Token,
    operatorStack = popped ++ rest
    /\ pop_by_precedence token outputQueue operatorStack = (outputQueue ++ popped, rest)
    /\ Forall (fun u => (subscript precedence (value token)
                         <= subscript precedence (value u))%Z) popped.
Proof.
  revert outputQueue. induction operatorStack as [|top below IH]; intros outputQueue; simpl.
  - exists [], []. by rewrite !app_nil_r.
  - destruct (Z.geb_spec (subscript precedence (value top))
                (subscript precedence (value token))) as [Hge|Hlt].
    + destruct (IH (push_back outputQueue top)) as (popped & rest & -> & -> & Hpopped).
      exists (top :: popped), rest. unfold push_back. rewrite <- app_assoc.
      repeat split; [done..|]. constructor; [lia | done].
    + exists [], (top :: below). by rewrite !app_nil_r.
Qed.

Lemma parse_token_parentheses_held (token : Token) (q s q' s' : list Token) :
  (type token = OPERATOR -> (1 <= subscript precedence (value token))%Z) ->
  parentheses_held q s ->
  parse_token token q s = Some (q', s') ->
  parentheses_held q' s'.
Proof.
  intros Hop [Hq Hs]. unfold parse_token. destruct (type token) eqn:Htype.
  - intros [= <- <-]. split; [|done]. apply Forall_app. split; [done|].
    apply Forall_singleton. congruence.
  - destruct (pop_by_precedence_popped token q s) as (popped & rest & -> & -> & Hpopped).
    intros [= <- <-]. apply Forall_app in Hs as [Hs Hrest]. split.
    + apply Forall_app. split; [done|].
      rewrite Forall_forall in Hpopped, Hs |- *. intros u Hu Hparen.
      specialize (Hpopped u Hu). rewrite (Hs u Hu Hparen) in Hpopped.
      change (subscript precedence "(") with 0%Z in Hpopped. specialize (Hop eq_refl). lia.
    + constructor; [congruence | done].
  - destruct (String.eqb_spec (value token) "(") as [Heq|Hne].
    + intros [= <- <-]. split; [done|]. by constructor.
    + destruct (pop_to_open_paren_split q s)
        as (popped & rest & -> & -> & Hpopped & [-> | (top & below & -> & Htop)]);
        [done|]. rewrite Htop. simpl. intros [= <- <-].
      apply Forall_app in Hs as [Hs Hrest]. split.
      * apply Forall_app. split; [done|].
        rewrite Forall_forall in Hpopped, Hs |- *. intros u Hu Hparen.
        by apply (Hpopped u Hu), Hs.
      * by inversion Hrest.
  - done.
Qed.

Lemma parse_loop_parentheses_held (tokens q s q' s' : list Token) :
  (forall t, t ∈ tokens -> type t = OPERATOR -> (1 <= subscript precedence (value t))%Z) ->
  parentheses_held q s ->
  parse_loop tokens q s = Some (q', s') ->
  parentheses_held q' s'.
Proof.
  revert q s. induction tokens as [|token tokens IH]; intros q s Hops Hheld; simpl.
  - by intros [= <- <-].
  - destruct (parse_token token q s) as [[q1 s1]|] eqn:Htoken; [|done].
    apply IH.
    + intros t Ht. apply Hops. by right.
    + apply (parse_token_parentheses_held token q s); [|done..].
      apply Hops. by left.
Qed.

(** C10.  The table has no entry for "(", so its lookup gives 0, and every
    entry is at least 1.  Hence for tokens whose operators are those of the
    table: at an operator token the precedence step pops operators lying
    above the topmost "(" only, and leaves that "(" and all below it on the
    stack, under the incoming operator; and no parenthesis ever reaches
    the output of [parse]. *)
Theorem open_paren_outlives_precedence_step (tokens : list Token) :
  (forall t, t ∈ tokens -> type t = OPERATOR -> is_Some (precedence !! value t)) ->
  (precedence !! "(" = None /\ subscript precedence "(" = 0%Z
   /\ forall key level, precedence !! key = Some level -> (1 <= level)%Z)
  /\ (forall token outputQueue above open below,
        token ∈ tokens -> type token = OPERATOR -> value open = "(" ->
        exists popped above' : list Token,
          above = popped ++ above'
          /\ pop_by_precedence token outputQueue (above ++ open :: below)
             = (outputQueue ++ popped, above' ++ open :: below)
          /\ parse_token token outputQueue (above ++ open :: below)
             = Some (outputQueue ++ popped, token :: above' ++ open :: below))
  /\ (forall t, t ∈ parse tokens -> type t <> PARENTHESIS).
Proof.
  intros Hops. split; [|split].
  - split; [done|]. split; [done|]. intros key level H. by apply (precedence_lookup key).
  - intros token q above open below Hin Htype Hopen.
    destruct (pop_by_precedence_keeps_open token open q above below)
      as (popped & above' & -> & Hpop); [by apply subscript_known, Hops | done |].
    exists popped, above'. split; [done|]. split; [done|].
    unfold parse_token. by rewrite Htype, Hpop.
  - unfold parse. destruct (parse_loop tokens [] []) as [[q s]|] eqn:Hloop;
      [|intros t Ht; by apply elem_of_nil in Ht].
    destruct (parse_sweep q s) as [sorted|] eqn:Hsweep;
      [|intros t Ht; by apply elem_of_nil in Ht].
    destruct (parse_loop_parentheses_held tokens [] [] q s) as [Hq _]; [| |done|].
    { intros t Ht Htype. by apply subscript_known, Hops. }
    { by split. }
    rewrite (parse_sweep_returns _ _ _ Hsweep).
    intros t Ht Hparen. apply elem_of_app in Ht as [Ht | Ht].
    + rewrite Forall_forall in Hq. by apply (Hq t Ht).
    + assert (Hnone : parse_sweep q s = None) by (apply parse_sweep_fails; eauto).
      congruence.
Qed.

(** ** The whole pipeline *)

Lemma emitted_tokens (mayBeUnary : bool) (new : list Token) :
  emitted mayBeUnary new ->
  forall t, t ∈ new ->
    type t <> INVALID /\ (type t = OPERATOR -> emitted_operator_lexeme (value t)).
Proof.
  induction 1 as [mu | mu c run rest Hc Hrun _ IH | rest _ IH | mu c rest Hc Hsign _ IH
                 | mu rest _ IH | mu rest _ IH]; intros t Ht.
  - by apply elem_of_nil in Ht.
  - apply elem_of_cons in Ht as [-> | Ht]; [by split | by apply IH].
  - apply elem_of_cons in Ht as [-> | Ht]; [|by apply IH].
    split; [done|]. intros _. by left.
  - apply elem_of_cons in Ht as [-> | Ht]; [|by apply IH].
    split; [done|]. intros _. right. by exists c.
  - apply elem_of_cons in Ht as [-> | Ht]; [by split | by apply IH].
  - apply elem_of_cons in Ht as [-> | Ht]; [by split | by apply IH].
Qed.

(** *** The parser outputs tokens of its input only *)

Lemma parse_token_subset (token : Token) (q s q' s' : list Token) :
  parse_token token q s = Some (q', s') ->
  forall t, t ∈ q' ++ s' -> t ∈ q ++ s \/ t = token.
Proof.
  unfold parse_token. destruct (type token).
  - intros [= <- <-] t. unfold push_back. membership.
  - destruct (pop_by_precedence_split token q s) as (popped & rest & -> & ->).
    intros [= <- <-] t. membership.
  - destruct (String.eqb (value token) "(").
    + intros [= <- <-] t. membership.
    + destruct (pop_to_open_paren_split q s)
        as (popped & rest & -> & -> & _ & [-> | (top & below & -> & Htop)]); [done|].
      rewrite Htop. simpl. intros [= <- <-] t. membership.
  - done.
Qed.

Lemma parse_loop_subset (tokens q s q' s' : list Token) :
  parse_loop tokens q s = Some (q', s') ->
  forall t, t ∈ q' ++ s' -> t ∈ q ++ s \/ t ∈ tokens.
Proof.
  revert q s. induction tokens as [|token tokens IH]; intros q s; simpl.
  - intros [= <- <-] t Ht. by left.
  - destruct (parse_token token q s) as [[q1 s1]|] eqn:Htoken; [|done].
    intros Hloop t Ht. destruct (IH _ _ Hloop t Ht) as [H | H].
    + destruct (parse_token_subset _ _ _ _ _ Htoken t H) as [H' | ->];
        [by left | right; by left].
    + right. by right.
Qed.

Lemma parse_subset (tokens : list Token) :
  forall t, t ∈ parse tokens -> t ∈ tokens.
Proof.
  unfold parse. intros t.
  destruct (parse_loop tokens [] []) as [[q s]|] eqn:Hloop;
    [|intros Ht; by apply elem_of_nil in Ht].
  destruct (parse_sweep q s) as [sorted|] eqn:Hsweep;
    [|intros Ht; by apply elem_of_nil in Ht].
  rewrite (parse_sweep_returns _ _ _ Hsweep). intros Ht.
  destruct (parse_loop_subset _ _ _ _ _ Hloop t Ht) as [H | H]; [|done].
  by apply elem_of_nil in H.
Qed.

Section Outcomes.

Variable pow : double -> double -> double.

Lemma applyOperator_emitted (left_ right_ : double) (c : ascii) :
  isOperator c = true ->
  exists r, applyOperator pow left_ right_ (string1 c) = inr r.
Proof.
  each_ascii c; intros H; vm_compute in H; try discriminate H;
    eexists; reflexivity.
Qed.

Lemma evaluate_token_defined (token : Token) (stack : list double) :
  evaluable token ->
  match evaluate_token pow token stack with
  | inl e => defined_exception e
  | inr _ => True
  end.
Proof.
  intros [Hnumber Hoperator]. unfold evaluate_token.
  destruct (type token) eqn:Htype; [| |done..].
  - destruct (Hnumber eq_refl) as [d ->]. done.
  - destruct (String.eqb_spec (value token) "~") as [Heq | Hne].
    + destruct stack; [|done]. eexists. split; [done|]. right. by left.
    + destruct stack as [|right_ [|left_ stack]].
      * eexists. split; [done|]. right; right; left. by eexists.
      * eexists. split; [done|]. right; right; left. by eexists.
      * destruct (_ && _).
        -- eexists. split; [done|]. right; right; right. by left.
        -- destruct (Hoperator eq_refl) as [? | (c & -> & Hc)]; [done|].
           by destruct (applyOperator_emitted left_ right_ c Hc) as [r ->].
Qed.

Lemma evaluate_loop_defined (postfix : list Token) (stack : list double) :
  (forall t, t ∈ postfix -> evaluable t) ->
  match evaluate_loop pow postfix stack with
  | inl e => defined_exception e
  | inr _ => True
  end.
Proof.
  revert stack. induction postfix as [|token postfix IH]; intros stack Hall; simpl; [done|].
  pose proof (evaluate_token_defined token stack (Hall token ltac:(by left))) as Htoken.
  destruct (evaluate_token pow token stack) as [e | stack']; simpl; [done|].
  apply IH. intros t Ht. apply Hall. by right.
Qed.

Lemma evaluate_defined (postfix : list Token) :
  (forall t, t ∈ postfix -> evaluable t) ->
  match evaluate pow postfix with
  | inl e => defined_exception e
  | inr _ => True
  end.
Proof.
  intros Hall. unfold evaluate.
  pose proof (evaluate_loop_defined postfix [] Hall) as Hloop.
  destruct (evaluate_loop pow postfix []) as [e | stack]; simpl; [done|].
  destruct stack as [|top [|second stack]]; simpl; [|done|];
    (eexists; split; [done|]; by repeat right).
Qed.

Lemma handleExpression_evaluates (expression : string) :
  handleExpression pow expression = inr InvalidExpression
  \/ handleExpression pow expression
     = match evaluate pow (parse (tokenize expression)) with
       | inr evalResult => inr (Printed evalResult)
       | inl (runtime_error what) => inr (Text what)
       | inl e => inl e
       end.
Proof.
  unfold handleExpression.
  destruct (tokenize expression) as [|[lexeme kind] [|second tokens]]; [by left | |].
  - destruct kind; [| | |by left]; (destruct (parse _); [by left | by right]).
  - destruct kind; (destruct (parse _); [by left | by right]).
Qed.

(** C2, amended.  When [std::stod] converts the lexeme of every number
    token of the expression, handling the expression ends with a double
    written out, finite or not, or with the text of one of the defined
    error conditions; no exception leaves [handleExpression]. *)
Theorem handleExpression_outcome (expression : string) :
  (forall t, t ∈ tokenize expression -> type t = NUMBER ->
             exists d, stod (value t) = inr d) ->
  double_or_defined_error (handleExpression pow expression).
Proof.
  intros Hstod.
  destruct (handleExpression_evaluates expression) as [-> | ->]; [by left|].
  assert (Hall : forall t, t ∈ parse (tokenize expression) -> evaluable t).
  { intros t Ht. apply parse_subset in Ht. split; [by apply Hstod|].
    destruct (tokenize_shape expression) as [(c & _ & Hc) | Hshape].
    - rewrite Hc in Ht. apply list_elem_of_singleton in Ht as ->. done.
    - by apply (emitted_tokens true _ Hshape). }
  pose proof (evaluate_defined _ Hall) as Heval.
  destruct (evaluate pow (parse (tokenize expression))) as [e | evalResult]; [|done].
  by destruct Heval as (what & -> & Hwhat).
Qed.

End Outcomes.

(** C2 as stated fails on two texts over its character set.  On "." the
    exception of [std::stod] is no [runtime_error] and leaves
    [handleExpression].  On the product of two literals 10^200 the result
    written out is infinite. *)
Lemma handleExpression_undefined_outcomes :
  (all_chars valid "." = true
   /\ handleExpression pow_natural "." = throw (invalid_argument "stod")
   /\ ~ finite_or_defined_error (handleExpression pow_natural "."))
  /\ (all_chars valid ("1" +:+ zeros 200 +:+ " * 1" +:+ zeros 200) = true
      /\ handleExpression pow_natural ("1" +:+ zeros 200 +:+ " * 1" +:+ zeros 200)
         = inr (Printed (S754_infinity false))
      /\ ~ finite_or_defined_error
             (handleExpression pow_natural ("1" +:+ zeros 200 +:+ " * 1" +:+ zeros 200))).
Proof.
  split.
  - split; [done|]. split; [done|]. intros H. exact H.
  - assert (H : handleExpression pow_natural ("1" +:+ zeros 200 +:+ " * 1" +:+ zeros 200)
                = inr (Printed (S754_infinity false))) by (vm_compute; reflexivity).
    split; [vm_compute; reflexivity|]. split; [exact H|]. rewrite H. simpl. discriminate.
Qed.

(** * Further properties *)

(** ** The tokenizer *)

Lemma operator_char_known (c : ascii) :
  isOperator c = true -> is_Some (precedence !! string1 c).
Proof.
  each_ascii c; intros H; vm_compute in H; try discriminate H;
    eexists; vm_compute; reflexivity.
Qed.

Lemma emitted_lexemes (mayBeUnary : bool) (new : list Token) :
  emitted mayBeUnary new ->
  forall t, t ∈ new ->
    match type t with
    | NUMBER => value t <> "" /\ all_chars isNumberChar (value t) = true
    | OPERATOR => is_Some (precedence !! value t)
    | PARENTHESIS => value t = "(" \/ value t = ")"
    | INVALID => False
    end.
Proof.
  induction 1 as [mu | mu c run rest Hc Hrun _ IH | rest _ IH | mu c rest Hc Hsign _ IH
                 | mu rest _ IH | mu rest _ IH]; intros t Ht.
  - by apply elem_of_nil in Ht.
  - apply elem_of_cons in Ht as [-> | Ht]; [|by apply IH].
    simpl. split; [done|]. by rewrite Hc, Hrun.
  - apply elem_of_cons in Ht as [-> | Ht]; [|by apply IH]. by eexists.
  - apply elem_of_cons in Ht as [-> | Ht]; [|by apply IH].
    by apply operator_char_known.
  - apply elem_of_cons in Ht as [-> | Ht]; [by left | by apply IH].
  - apply elem_of_cons in Ht as [-> | Ht]; [by right | by apply IH].
Qed.

(** X1.  Every token that [tokenize] returns is of one of four forms: a
    number whose lexeme is a non-empty run of digits and decimal points; an
    operator whose lexeme has an entry in the precedence table of the
    parser and a case in [applyOperator]; a parenthesis "(" or ")"; or an
    INVALID token, which is then the only token returned and holds an
    offending character of the text. *)
Theorem tokenize_token_classes (expression : string) (t : Token) :
  t ∈ tokenize expression ->
  match type t with
  | NUMBER => value t <> "" /\ all_chars isNumberChar (value t) = true
  | OPERATOR =>
    is_Some (precedence !! value t)
    /\ forall pow left_ right_, exists r, applyOperator pow left_ right_ (value t) = inr r
  | PARENTHESIS => value t = "(" \/ value t = ")"
  | INVALID =>
    tokenize expression = [t]
    /\ exists c, value t = string1 c /\ offending c = true
                 /\ In c (list_ascii_of_string expression)
  end.
Proof.
  intros Ht.
  destruct (valid_or_offending expression)
    as [Hvalid | (before & c & after & -> & Hbefore & Hc)].
  - unfold tokenize in Ht |- *.
    destruct (tokenize_loop_emitted expression Hvalid true []) as (new & Hnew & Hshape).
    rewrite Hnew in Ht |- *. simpl in Ht |- *.
    pose proof (emitted_lexemes true new Hshape t Ht) as Hlex.
    pose proof (emitted_tokens true new Hshape t Ht) as [_ Hop].
    destruct (type t); [done | | done | done].
    split; [done|]. intros pow left_ right_.
    destruct (Hop eq_refl) as [-> | (c & -> & Hc)]; [by eexists|].
    by apply applyOperator_emitted.
  - unfold tokenize in Ht |- *.
    rewrite (tokenize_loop_offending before c after Hbefore Hc) in Ht |- *.
    apply list_elem_of_singleton in Ht as ->. simpl. split; [done|].
    exists c. split; [done|]. split; [done|].
    clear. induction before as [|b before IH]; simpl; [by left | by right].
Qed.

(** *** The flag between two tokens *)

Lemma emitted_head (mayBeUnary : bool) (t : Token) (rest : list Token) :
  emitted mayBeUnary (t :: rest) ->
  emitted (unary_after t) rest
  /\ (t = Operator "~" -> mayBeUnary = true)
  /\ (t = Operator "-" \/ t = Operator "+" -> mayBeUnary = false).
Proof.
  inversion 1 as [| mu c run rest' Hc Hrun Hrest | rest' Hrest | mu c rest' Hc Hsign Hrest
                 | mu rest' Hrest | mu rest' Hrest]; subst.
  - split; [done|]. split; [done|]. intros [? | ?]; done.
  - split; [done|]. split; [done|]. intros [? | ?]; done.
  - split; [done|]. split.
    + intros [= Heq]. subst c. done.
    + destruct mayBeUnary; [|done]. destruct (Hsign eq_refl) as [Hminus Hplus].
      intros [[= ->] | [= ->]]; done.
  - split; [done|]. split; [done|]. intros [? | ?]; done.
  - split; [done|]. split; [done|]. intros [? | ?]; done.
Qed.

Lemma emitted_app (mayBeUnary : bool) (before : list Token) (t : Token)
    (rest : list Token) :
  emitted mayBeUnary (before ++ t :: rest) ->
  exists mayBeUnary', emitted mayBeUnary' (t :: rest)
    /\ (before = [] -> mayBeUnary' = mayBeUnary)
    /\ (forall before' a, before = before' ++ [a] -> mayBeUnary' = unary_after a).
Proof.
  revert mayBeUnary. induction before as [|b before IH]; intros mu H.
  - exists mu. split; [done|]. split; [done|]. intros before' a Heq.
    by destruct before'.
  - simpl in H. apply emitted_head in H as [Hrest _].
    destruct (IH _ Hrest) as (mu' & Hmu' & Hnil & Hsnoc).
    exists mu'. split; [done|]. split; [done|]. intros before' a Heq.
    destruct before as [|b' before''].
    + destruct before' as [|? [|? ?]]; simpl in Heq; simplify_eq. by apply Hnil.
    + destruct before' as [|b0 before']; simpl in Heq; simplify_eq.
      by apply (Hsnoc before' a).
Qed.

(** X2.  In what [tokenize] returns, the unary minus "~" comes first or
    directly after an operator or "(", never after a number or ")"; and a
    binary "-" or "+" comes directly after a number or ")", never first. *)
Theorem tokenize_sign_context (expression : string) :
  (forall (before : list Token) a b after,
     tokenize expression = before ++ a :: b :: after ->
     (b = Operator "~" -> type a = OPERATOR \/ a = Parenthesis "(")
     /\ (b = Operator "-" \/ b = Operator "+" -> type a = NUMBER \/ a = Parenthesis ")"))
  /\ (forall b after,
        tokenize expression = b :: after -> b <> Operator "-" /\ b <> Operator "+").
Proof.
  destruct (tokenize_shape expression) as [(c & _ & Hc) | Hshape].
  { rewrite Hc. split.
    - intros before a b after Heq. destruct before as [|? [|? ?]]; discriminate Heq.
    - intros b after [= <- <-]. split; discriminate. }
  split.
  - intros before a b after Heq. rewrite Heq in Hshape.
    replace (before ++ a :: b :: after) with ((before ++ [a]) ++ b :: after) in Hshape
      by (by rewrite <- app_assoc).
    pose proof (emitted_lexemes _ _ Hshape a) as Ha.
    destruct (emitted_app _ _ _ _ Hshape) as (mu & Hb & _ & Hsnoc).
    specialize (Hsnoc before a eq_refl). subst mu.
    apply emitted_head in Hb as (_ & Hminus & Hbinary).
    assert (Hin : a ∈ (before ++ [a]) ++ b :: after) by membership.
    specialize (Ha Hin). unfold unary_after in Hminus, Hbinary.
    destruct a as [lexeme kind]. simpl in *. split.
    + intros Hb. specialize (Hminus Hb).
      destruct kind; [done | by left | | done].
      right. apply String.eqb_eq in Hminus. by subst.
    + intros Hb. specialize (Hbinary Hb).
      destruct kind; [by left | done | | done].
      right. destruct Ha as [-> | ->]; [done | done].
  - intros b after Heq. rewrite Heq in Hshape.
    apply emitted_head in Hshape as (_ & _ & Hbinary).
    split; intros ->.
    + assert (true = false) by (apply Hbinary; by left). done.
    + assert (true = false) by (apply Hbinary; by right). done.
Qed.

(** *** Numbers *)

Lemma tokenize_loop_number_run (c : ascii) (run tail : string) (mayBeUnary : bool)
    (tokens : list Token) :
  isNumberChar c = true -> all_chars isNumberChar run = true ->
  (tail = "" \/ exists d rest, tail = String d rest /\ isNumberChar d = false) ->
  tokenize_loop (String c run +:+ tail) mayBeUnary tokens
  = tokenize_loop tail false (push_back tokens (Number (String c run))).
Proof.
  intros Hc Hrun Htail. simpl. rewrite tokenize_loop_unfold.
  rewrite (number_char_classes c Hc), Hc.
  by rewrite (read_number_app run tail (string1 c) Hrun Htail).
Qed.

(** X3.  A non-empty run of digits and decimal points is one number token,
    however many decimal points it holds: alone it is the only token, and
    before a character that is not of a number it is read as a whole, after
    which [mayBeUnary] is unset. *)
Theorem tokenize_number_run (s : string) :
  s <> "" -> all_chars isNumberChar s = true ->
  tokenize s = [Number s]
  /\ (forall (c : ascii) (rest : string) mayBeUnary tokens,
        isNumberChar c = false ->
        tokenize_loop (s +:+ String c rest) mayBeUnary tokens
        = tokenize_loop (String c rest) false (push_back tokens (Number s))).
Proof.
  intros Hne Hs. destruct s as [|c run]; [done|].
  simpl in Hs. apply andb_true_iff in Hs as [Hc Hrun]. split.
  - unfold tokenize. rewrite <- (append_empty_r (String c run)) at 1.
    rewrite tokenize_loop_number_run by auto. reflexivity.
  - intros d rest mu tokens Hd.
    apply tokenize_loop_number_run; [done | done |]. right. by exists d, rest.
Qed.

(** *** Texts without tokens *)

Lemma tokenize_loop_skipped (s : string) :
  all_chars skipped s = true -> forall tokens, tokenize_loop s true tokens = tokens.
Proof.
  induction s as [|c s IH]; intros Hs tokens; [done|].
  simpl in Hs. apply andb_true_iff in Hs as [Hc Hs].
  rewrite tokenize_loop_unfold. unfold skipped in Hc.
  destruct (isspace c) eqn:Hspace; [by apply IH|].
  simpl in Hc. apply Ascii.eqb_eq in Hc as ->. simpl. by apply IH.
Qed.

(** With tokens already collected, or with a character that is not
    skipped, the result holds a token. *)
Lemma tokenize_loop_nonempty (s : string) (mayBeUnary : bool) (tokens : list Token) :
  tokens <> [] -> tokenize_loop s mayBeUnary tokens <> [].
Proof.
  intros Hne.
  destruct (valid_or_offending s) as [Hvalid | (before & c & after & -> & Hbefore & Hc)].
  - destruct (tokenize_loop_emitted s Hvalid mayBeUnary tokens) as (new & -> & _).
    intros H. apply app_eq_nil in H as [? _]. done.
  - by rewrite (tokenize_loop_offending before c after Hbefore Hc).
Qed.

Lemma tokenize_loop_not_skipped (s : string) :
  all_chars skipped s = false -> tokenize_loop s true [] <> [].
Proof.
  induction s as [|c s IH]; [done|]. simpl. intros Hs.
  rewrite tokenize_loop_unfold. unfold skipped in Hs at 1.
  destruct (isspace c) eqn:Hspace; [by apply IH|]. simpl in Hs.
  destruct (isNumberChar c).
  { destruct (read_number s (string1 c)). by apply tokenize_loop_nonempty. }
  destruct (isOperator c).
  { destruct (Ascii.eqb c "-"); simpl; [by apply tokenize_loop_nonempty|].
    destruct (Ascii.eqb c "+"); simpl; [by apply IH | by apply tokenize_loop_nonempty]. }
  destruct (_ || _); [by apply tokenize_loop_nonempty | done].
Qed.

Section NoTokens.

Variable pow : double -> double -> double.

(** X4.  [tokenize] returns no token at all exactly for the texts made of
    white space and '+' only (the empty text among them); handling such a
    text gives the invalid-expression message. *)
Theorem tokenize_nothing (expression : string) :
  (tokenize expression = [] <-> all_chars skipped expression = true)
  /\ (all_chars skipped expression = true ->
      handleExpression pow expression = inr InvalidExpression).
Proof.
  assert (H : all_chars skipped expression = true -> tokenize expression = []).
  { intros Hs. by apply tokenize_loop_skipped. }
  split; [split; [|done] |].
  - intros Hnil. destruct (all_chars skipped expression) eqn:Hs; [done|].
    by apply tokenize_loop_not_skipped in Hs.
  - intros Hs. unfold handleExpression. by rewrite (H Hs).
Qed.

End NoTokens.

(** *** White space at the ends *)

Lemma read_number_maximal (s number : string) :
  exists run rest,
    s = run +:+ rest
    /\ read_number s number = (number +:+ run, rest)
    /\ all_chars isNumberChar run = true
    /\ (rest = "" \/ exists d rest', rest = String d rest' /\ isNumberChar d = false).
Proof.
  revert number. induction s as [|d s IH]; intros number; simpl.
  - exists "", "". rewrite !append_empty_r. auto.
  - destruct (isNumberChar d) eqn:Hd.
    + destruct (IH (number +:+ string1 d)) as (run & rest & -> & -> & Hrun & Hrest).
      exists (String d run), rest. rewrite append_assoc. simpl. rewrite Hd. auto.
    + exists "", (String d s). rewrite !append_empty_r. eauto 10.
Qed.

Lemma space_stops (space : string) :
  all_chars isspace space = true ->
  space = "" \/ exists d rest, space = String d rest /\ isNumberChar d = false.
Proof.
  destruct space as [|d rest]; [by left|]. simpl. intros H.
  apply andb_true_iff in H as [Hd _]. right. exists d, rest. split; [done|].
  revert Hd. clear. each_ascii d; vm_compute; intros H; try discriminate H; reflexivity.
Qed.

Lemma tokenize_loop_leading_space (space s : string) (mayBeUnary : bool)
    (tokens : list Token) :
  all_chars isspace space = true ->
  tokenize_loop (space +:+ s) mayBeUnary tokens = tokenize_loop s mayBeUnary tokens.
Proof.
  induction space as [|c space IH]; [done|]. simpl. intros H.
  apply andb_true_iff in H as [Hc Hspace].
  rewrite tokenize_loop_unfold, Hc. by apply IH.
Qed.

Lemma tokenize_loop_trailing_space (s space : string) :
  all_chars isspace space = true ->
  forall mayBeUnary tokens,
    tokenize_loop (s +:+ space) mayBeUnary tokens = tokenize_loop s mayBeUnary tokens.
Proof.
  intros Hspace. remember (String.length s) as n eqn:Hn. revert s Hn.
  induction n as [n IH] using lt_wf_ind. intros [|c s] Hn mayBeUnary tokens.
  { rewrite <- (append_empty_r space) at 1. simpl.
    by rewrite tokenize_loop_leading_space. }
  simpl in Hn |- *. rewrite !tokenize_loop_unfold.
  assert (Hrec : forall mayBeUnary tokens,
             tokenize_loop (s +:+ space) mayBeUnary tokens
             = tokenize_loop s mayBeUnary tokens).
  { apply (IH (String.length s)); [lia | done]. }
  destruct (isspace c); [apply Hrec|].
  destruct (isNumberChar c).
  { destruct (read_number_maximal s (string1 c)) as (run & rest & -> & -> & Hrun & Hrest).
    rewrite append_assoc, read_number_app; [| done |].
    - apply (IH (String.length rest)); [|done]. rewrite length_append in Hn. lia.
    - destruct Hrest as [-> | (d & rest' & -> & Hd)]; [by apply space_stops|].
      right. by exists d, (rest' +:+ space). }
  destruct (isOperator c).
  { destruct (_ && _); [apply Hrec|]. destruct (_ && _); apply Hrec. }
  destruct (_ || _); [apply Hrec | done].
Qed.

(** X5.  White space before and after a text does not change its tokens. *)
Theorem tokenize_outer_space (before expression after : string) :
  all_chars isspace before = true -> all_chars isspace after = true ->
  tokenize (before +:+ expression +:+ after) = tokenize expression.
Proof.
  intros Hbefore Hafter. unfold tokenize.
  by rewrite tokenize_loop_leading_space, tokenize_loop_trailing_space.
Qed.

(** ** The parser *)

Lemma pop_by_precedence_stops (token : Token) (outputQueue operatorStack : list Token) :
  exists popped rest : list Token,
    operatorStack = popped ++ rest
    /\ pop_by_precedence token outputQueue operatorStack = (outputQueue ++ popped, rest)
    /\ Forall (fun u => (subscript precedence (value token)
                         <= subscript precedence (value u))%Z) popped
    /\ (rest = [] \/ exists top below, rest = top :: below
         /\ (subscript precedence (value top) < subscript precedence (value token))%Z).
Proof.
  revert outputQueue. induction operatorStack as [|top below IH]; intros outputQueue; simpl.
  - exists [], []. rewrite !app_nil_r. auto.
  - destruct (Z.geb_spec (subscript precedence (value top))
                (subscript precedence (value token))) as [Hge|Hlt].
    + destruct (IH (push_back outputQueue top)) as (popped & rest & -> & -> & Hpopped & Hrest).
      exists (top :: popped), rest. unfold push_back. rewrite <- app_assoc.
      repeat split; [done.. | | done]. constructor; [lia | done].
    + exists [], (top :: below). rewrite !app_nil_r. eauto 10.
Qed.

Lemma stack_kinds_value (u : Token) :
  (type u = OPERATOR /\ (1 <= subscript precedence (value u))%Z)
  \/ (type u = PARENTHESIS /\ value u = "(") ->
  (value u = "(" <-> type u = PARENTHESIS)
  /\ (type u = PARENTHESIS \/ type u = OPERATOR).
Proof.
  intros [[Htype Hprec] | [Htype Hvalue]].
  - split; [|by right]. split; [|congruence].
    intros Hvalue. rewrite Hvalue in Hprec. vm_compute in Hprec. done.
  - split; [done | by left].
Qed.

Lemma parse_token_step (token : Token) (q s q' s' : list Token) :
  (type token = OPERATOR -> is_Some (precedence !! value token)) ->
  stack_kinds s ->
  parse_token token q s = Some (q', s') ->
  parse_step token q s q' s' /\ stack_kinds s'.
Proof.
  intros Hknown Hs. unfold parse_token. destruct (type token) eqn:Htype.
  - intros [= <- <-]. split; [by constructor | done].
  - specialize (Hknown eq_refl). apply subscript_known in Hknown.
    destruct (pop_by_precedence_stops token q s)
      as (popped & rest & -> & -> & Hpopped & Hrest).
    intros [= <- <-]. apply Forall_app in Hs as [Hpop Hrest']. split.
    + apply step_operator; [done.. | | done].
      rewrite Forall_forall in Hpopped, Hpop |- *. intros u Hu.
      split; [|by apply Hpopped].
      destruct (Hpop u Hu) as [[? _] | [_ Hvalue]]; [done|].
      specialize (Hpopped u Hu). rewrite Hvalue in Hpopped.
      change (subscript precedence "(") with 0%Z in Hpopped. lia.
    + constructor; [by left | done].
  - destruct (String.eqb_spec (value token) "(") as [Heq | Hne].
    + intros [= <- <-]. split; [by constructor|]. constructor; [by right | done].
    + destruct (pop_to_open_paren_split q s)
        as (popped & rest & -> & -> & Hpopped & [-> | (top & below & -> & Htop)]);
        [done|]. rewrite Htop. simpl. intros [= <- <-].
      apply Forall_app in Hs as [Hpop Hrest]. inversion Hrest as [|? ? Hkind Hbelow]; subst.
      split; [|done]. apply (step_close _ _ _ popped top below); try done.
      * rewrite Forall_forall in Hpopped, Hpop |- *. intros u Hu.
        destruct (stack_kinds_value u (Hpop u Hu)) as [Hiff [Hparen | Hop]]; [|done].
        by destruct (Hpopped u Hu); apply Hiff.
      * by apply (stack_kinds_value top Hkind).
  - done.
Qed.

(** An invariant of the stack and the queue that each step keeps is kept by
    the loop. *)
Lemma parse_loop_invariant (P : list Token -> list Token -> list Token -> Prop) :
  (forall token rest q s q' s',
      stack_kinds s -> parse_step token q s q' s' ->
      P rest q' s' -> P (token :: rest) q s) ->
  forall tokens q s q' s',
    known_operators tokens -> stack_kinds s ->
    parse_loop tokens q s = Some (q', s') ->
    P [] q' s' -> P tokens q s.
Proof.
  intros Hstep tokens. induction tokens as [|token tokens IH];
    intros q s q' s' Hknown Hs; simpl.
  - by intros [= <- <-].
  - destruct (parse_token token q s) as [[q1 s1]|] eqn:Htoken; [|done].
    intros Hloop Hend.
    destruct (parse_token_step token q s q1 s1) as [Hone Hs1]; [|done..|].
    { apply Hknown. by left. }
    apply (Hstep token tokens q s q1 s1); [done..|].
    apply (IH q1 s1 q' s'); [|done..]. intros t Ht. apply Hknown. by right.
Qed.

Lemma parse_loop_stack_kinds (tokens q s q' s' : list Token) :
  known_operators tokens -> stack_kinds s ->
  parse_loop tokens q s = Some (q', s') -> stack_kinds s'.
Proof.
  revert q s. induction tokens as [|token tokens IH]; intros q s Hknown Hs; simpl.
  - by intros [= <- <-].
  - destruct (parse_token token q s) as [[q1 s1]|] eqn:Htoken; [|done].
    destruct (parse_token_step token q s q1 s1) as [_ Hs1]; [|done..|].
    { apply Hknown. by left. }
    apply IH; [|done]. intros t Ht. apply Hknown. by right.
Qed.

Lemma parse_nonempty (tokens : list Token) :
  parse tokens <> [] ->
  exists q s, parse_loop tokens [] [] = Some (q, s)
    /\ parse tokens = q ++ s
    /\ Forall (fun u => type u <> PARENTHESIS) s.
Proof.
  unfold parse. destruct (parse_loop tokens [] []) as [[q s]|] eqn:Hloop; [|done].
  destruct (parse_sweep q s) as [sorted|] eqn:Hsweep; [|done].
  intros _. exists q, s. split; [done|]. split; [by apply parse_sweep_returns|].
  apply Forall_forall. intros u Hu Hparen.
  assert (parse_sweep q s = None) by (apply parse_sweep_fails; eauto). congruence.
Qed.

Lemma filter_all (P : Token -> Prop) `{forall t, Decision (P t)} (l : list Token) :
  Forall P l -> filter P l = l.
Proof. induction 1 as [|u l Hu _ IH]; [done|]. by rewrite filter_cons_True, IH. Qed.

Lemma filter_none (P : Token -> Prop) `{forall t, Decision (P t)} (l : list Token) :
  Forall (fun t => ~ P t) l -> filter P l = [].
Proof. induction 1 as [|u l Hu _ IH]; [done|]. by rewrite filter_cons_False. Qed.

(** *** The output is the input without its parentheses, rearranged *)

Lemma permutation_number (q a b : list Token) (t : Token) :
  (q ++ [t]) ++ a ++ b ≡ₚ q ++ a ++ t :: b.
Proof. solve_Permutation. Qed.

Lemma permutation_operator (q popped a b : list Token) (t : Token) :
  (q ++ popped) ++ (t :: a) ++ b ≡ₚ q ++ (popped ++ a) ++ t :: b.
Proof. solve_Permutation. Qed.

Lemma permutation_close (q popped a b : list Token) :
  (q ++ popped) ++ a ++ b ≡ₚ q ++ (popped ++ a) ++ b.
Proof. solve_Permutation. Qed.

Lemma parse_loop_permutation (tokens q s q' s' : list Token) :
  known_operators tokens -> stack_kinds s ->
  parse_loop tokens q s = Some (q', s') ->
  q' ++ filter (fun t => type t <> PARENTHESIS) s'
  ≡ₚ q ++ filter (fun t => type t <> PARENTHESIS) s
       ++ filter (fun t => type t <> PARENTHESIS) tokens.
Proof.
  intros Hknown Hs Hloop.
  refine (parse_loop_invariant
            (fun tokens q s =>
               q' ++ filter (fun t => type t <> PARENTHESIS) s'
               ≡ₚ q ++ filter (fun t => type t <> PARENTHESIS) s
                    ++ filter (fun t => type t <> PARENTHESIS) tokens)
            _ tokens q s q' s' Hknown Hs Hloop _); [|by rewrite app_nil_r].
  clear. intros token rest q s q1 s1 _ Hstep IH. rewrite IH. clear IH.
  destruct Hstep as [Htype | popped rest' Htype -> Hpopped _ | Htype Hvalue
                    | popped open below Htype Hvalue -> Hpopped Hopen _].
  - rewrite (filter_cons_True _ token) by congruence. apply permutation_number.
  - rewrite (filter_cons_True _ token), (filter_cons_True _ token) by congruence.
    rewrite filter_app, (filter_all _ popped).
    + apply permutation_operator.
    + eapply Forall_impl; [exact Hpopped|]. intros u [Hu _]. congruence.
  - rewrite !(filter_cons_False _ token) by (intros H; by apply H). done.
  - rewrite (filter_cons_False _ token) by (intros H; by apply H).
    rewrite filter_app, (filter_all _ popped).
    + rewrite (filter_cons_False _ open) by (intros H; by apply H).
      apply permutation_close.
    + eapply Forall_impl; [exact Hpopped|]. intros u Hu. congruence.
Qed.

(** X6.  When the operators are those of the table and [parse] returns a
    non-empty sequence, this sequence is a rearrangement of the input
    tokens without the parentheses: every number and operator token is
    output exactly once, and nothing else. *)
Theorem parse_permutes_operands_and_operators (tokens : list Token) :
  known_operators tokens -> parse tokens <> [] ->
  parse tokens ≡ₚ filter (fun t => type t <> PARENTHESIS) tokens
  /\ length (parse tokens) = length (filter (fun t => type t <> PARENTHESIS) tokens).
Proof.
  intros Hknown Hne.
  assert (Hperm : parse tokens ≡ₚ filter (fun t => type t <> PARENTHESIS) tokens).
  { destruct (parse_nonempty tokens Hne) as (q & s & Hloop & -> & Hs).
    rewrite <- (filter_all (fun t => type t <> PARENTHESIS) s Hs).
    by rewrite (parse_loop_permutation tokens [] [] q s Hknown (List.Forall_nil _) Hloop). }
  split; [done|]. by rewrite Hperm.
Qed.

(** *** The numbers keep their order *)

Lemma stack_kinds_no_number (s : list Token) :
  stack_kinds s -> filter (fun t => type t = NUMBER) s = [].
Proof.
  intros Hs. apply filter_none. eapply Forall_impl; [exact Hs|].
  intros u [[Hu _] | [Hu _]]; congruence.
Qed.

Lemma parse_loop_numbers (tokens q s q' s' : list Token) :
  known_operators tokens -> stack_kinds s ->
  parse_loop tokens q s = Some (q', s') ->
  filter (fun t => type t = NUMBER) q'
  = filter (fun t => type t = NUMBER) q ++ filter (fun t => type t = NUMBER) tokens.
Proof.
  intros Hknown Hs Hloop.
  refine (parse_loop_invariant
            (fun tokens q s =>
               filter (fun t => type t = NUMBER) q'
               = filter (fun t => type t = NUMBER) q
                   ++ filter (fun t => type t = NUMBER) tokens)
            _ tokens q s q' s' Hknown Hs Hloop _); [|by rewrite app_nil_r].
  clear. intros token rest q s q1 s1 _ Hstep IH. rewrite IH. clear IH.
  destruct Hstep as [Htype | popped rest' Htype -> Hpopped _ | Htype Hvalue
                    | popped open below Htype Hvalue -> Hpopped Hopen _].
  - rewrite filter_app, !(filter_cons_True _ token), filter_nil by done.
    by rewrite <- app_assoc.
  - rewrite filter_app, (filter_cons_False _ token) by congruence.
    rewrite (filter_none _ popped), app_nil_r; [done|].
    eapply Forall_impl; [exact Hpopped|]. intros u [Hu _]. congruence.
  - by rewrite (filter_cons_False _ token) by congruence.
  - rewrite filter_app, (filter_cons_False _ token) by congruence.
    rewrite (filter_none _ popped), app_nil_r; [done|].
    eapply Forall_impl; [exact Hpopped|]. intros u Hu. congruence.
Qed.

(** X7.  When the operators are those of the table and [parse] returns a
    non-empty sequence, the number tokens are in it in the order of the
    input. *)
Theorem parse_keeps_number_order (tokens : list Token) :
  known_operators tokens -> parse tokens <> [] ->
  filter (fun t => type t = NUMBER) (parse tokens)
  = filter (fun t => type t = NUMBER) tokens.
Proof.
  intros Hknown Hne.
  destruct (parse_nonempty tokens Hne) as (q & s & Hloop & -> & Hs).
  rewrite filter_app.
  rewrite (parse_loop_numbers tokens [] [] q s Hknown (List.Forall_nil _) Hloop).
  rewrite (stack_kinds_no_number s), app_nil_r; [by rewrite filter_nil|].
  exact (parse_loop_stack_kinds tokens [] [] q s Hknown (List.Forall_nil _) Hloop).
Qed.

(** *** Failure of the parser and balance of the parentheses *)

Lemma open_depth_app (a b : list Token) : open_depth (a ++ b) = open_depth a + open_depth b.
Proof. unfold open_depth. by rewrite filter_app, length_app. Qed.

Lemma open_depth_operators (popped : list Token) :
  Forall (fun u => type u = OPERATOR) popped -> open_depth popped = 0.
Proof.
  intros H. unfold open_depth. rewrite filter_none; [done|].
  eapply Forall_impl; [exact H|]. intros u Hu. congruence.
Qed.

Lemma open_depth_none (s : list Token) :
  stack_kinds s -> (forall u, u ∈ s -> value u <> "(") -> open_depth s = 0.
Proof.
  intros Hs Hnone. apply open_depth_operators. unfold stack_kinds in Hs.
  rewrite Forall_forall in Hs |- *.
  intros u Hu. destruct (Hs u Hu) as [[? _] | [_ Hvalue]]; [done|].
  by destruct (Hnone u Hu).
Qed.

Lemma parse_step_depth (token : Token) (rest q s q' s' : list Token) :
  parse_step token q s q' s' ->
  balanced_from (open_depth s) (token :: rest) = balanced_from (open_depth s') rest.
Proof.
  intros [Htype | popped rest' Htype -> Hpopped _ | Htype Hvalue
         | popped open below Htype Hvalue -> Hpopped Hopen _]; simpl; rewrite Htype.
  - done.
  - rewrite open_depth_app, open_depth_operators.
    + unfold open_depth. by rewrite filter_cons_False by congruence.
    + eapply Forall_impl; [exact Hpopped|]. by intros u [Hu _].
  - rewrite Hvalue. simpl. unfold open_depth. by rewrite filter_cons_True.
  - apply String.eqb_neq in Hvalue. rewrite Hvalue.
    rewrite open_depth_app, open_depth_operators by done.
    unfold open_depth. by rewrite filter_cons_True.
Qed.

Lemma parse_loop_balance (tokens q s : list Token) :
  known_operators tokens -> ~ has_invalid tokens -> stack_kinds s ->
  match parse_loop tokens q s with
  | Some (q', s') => balanced_from (open_depth s) tokens = Nat.eqb (open_depth s') 0
  | None => balanced_from (open_depth s) tokens = false
  end.
Proof.
  revert q s. induction tokens as [|token tokens IH]; intros q s Hknown Hvalid Hs.
  { done. }
  assert (Hknown' : known_operators tokens) by (intros t Ht; apply Hknown; by right).
  assert (Hvalid' : ~ has_invalid tokens).
  { intros (t & Ht & Htype). apply Hvalid. exists t. split; [by right | done]. }
  cbn [parse_loop].
  destruct (parse_token token q s) as [[q1 s1]|] eqn:Htoken.
  - destruct (parse_token_step token q s q1 s1) as [Hstep Hs1]; [|done..|].
    { apply Hknown. by left. }
    rewrite (parse_step_depth token tokens q s q1 s1 Hstep). by apply IH.
  - destruct (parse_token_fails _ _ _ Htoken) as [Hinv | (Htype & Hvalue & Hnone)].
    + destruct Hvalid. exists token. split; [by left | done].
    + simpl. rewrite Htype. apply String.eqb_neq in Hvalue. rewrite Hvalue.
      by rewrite (open_depth_none s Hs Hnone).
Qed.

(** X8.  For tokens without INVALID whose operators are those of the table,
    the two parenthesis failures of [parse] arise exactly when the
    parentheses are not balanced; a non-empty output means that they are
    balanced. *)
Theorem parse_fails_on_imbalance (tokens : list Token) :
  known_operators tokens -> ~ has_invalid tokens ->
  (closes_unopened tokens \/ leaves_open tokens <-> balanced_from 0 tokens = false)
  /\ (parse tokens <> [] -> balanced_from 0 tokens = true).
Proof.
  intros Hknown Hvalid.
  pose proof (parse_loop_balance tokens [] [] Hknown Hvalid (List.Forall_nil _)) as Hbal.
  change (open_depth []) with 0 in Hbal.
  destruct (parse_loop tokens [] []) as [[q s]|] eqn:Hloop.
  - assert (Hleft : leaves_open tokens <-> open_depth s <> 0).
    { split.
      - intros (q' & s' & Hloop' & u & Hu & Htype). rewrite Hloop in Hloop'.
        injection Hloop' as <- <-. unfold open_depth.
        apply list_elem_of_split in Hu as (a & b & ->).
        rewrite filter_app, filter_cons_True, length_app by done. simpl. lia.
      - intros Hdepth. exists q, s. split; [done|]. unfold open_depth in Hdepth.
        destruct (filter _ s) as [|u l] eqn:Hfilter; [done|].
        assert (Hu : u ∈ filter (fun u => type u = PARENTHESIS) s)
          by (rewrite Hfilter; by left).
        apply list_elem_of_filter in Hu as [Htype Hu]. by exists u. }
    split.
    + rewrite Hbal, Hleft. split.
      * intros [Hclose | Hdepth]; [|by apply Nat.eqb_neq].
        apply closes_unopened_fails in Hclose. congruence.
      * intros Hdepth. right. by apply Nat.eqb_neq.
    + intros Hne. rewrite Hbal. apply Nat.eqb_eq.
      destruct (parse_nonempty tokens Hne) as (q' & s' & Hloop' & _ & Hs').
      rewrite Hloop in Hloop'. injection Hloop' as <- <-.
      unfold open_depth. rewrite filter_none; [done|].
      eapply Forall_impl; [exact Hs'|]. by intros u Hu.
  - split.
    + split; [done|]. intros _. left.
      destruct (parse_loop_fails _ _ _ Hloop) as [Hinv | H]; [done | exact H].
    + unfold parse. by rewrite Hloop.
Qed.

(** *** The operators on the stack *)

Lemma ascending_suffix (a b : list Token) : ascending (a ++ b) -> ascending b.
Proof.
  induction a as [|u a IH]; [done|]. intros H. apply IH.
  destruct a as [|v a]; simpl in H |- *.
  - by destruct b as [|? ?]; [|destruct H].
  - by destruct H.
Qed.

Lemma parse_step_ascending (token : Token) (q s q' s' : list Token) :
  parse_step token q s q' s' -> ascending s -> ascending s'.
Proof.
  intros [Htype | popped rest' Htype -> Hpopped Hrest | Htype Hvalue
         | popped open below Htype Hvalue -> Hpopped Hopen _] Hs.
  - done.
  - apply ascending_suffix in Hs.
    destruct Hrest as [-> | (top & below & -> & Hlt)]; [done|].
    split; [|done]. by right; right.
  - destruct s as [|top below]; [done|]. split; [by left | done].
  - apply ascending_suffix in Hs. by apply (ascending_suffix [open]).
Qed.

(** X9.  When the operators are those of the table, in every state that
    the loop of [parse] reaches an operator lying directly on another
    operator of the stack has a strictly higher precedence: two operators
    of equal precedence are never stacked on one another. *)
Theorem operator_stack_ascending (tokens q s : list Token) :
  known_operators tokens ->
  parse_loop tokens [] [] = Some (q, s) ->
  ascending s.
Proof.
  intros Hknown Hloop.
  assert (H : ascending [] -> ascending s); [|by apply H].
  refine (parse_loop_invariant (fun tokens q0 s0 => ascending s0 -> ascending s)
            _ tokens [] [] q s Hknown (List.Forall_nil _) Hloop _); [|done].
  intros token rest q0 s0 q1 s1 _ Hstep IH Hs0. apply IH.
  by apply (parse_step_ascending token q0 s0 q1 s1).
Qed.

(** *** An expression in parentheses *)

Lemma pop_by_precedence_exact (token : Token) (q popped tail : list Token) :
  Forall (fun u => (subscript precedence (value token)
                    <= subscript precedence (value u))%Z) popped ->
  (tail = [] \/ exists top below, tail = top :: below
     /\ (subscript precedence (value top) < subscript precedence (value token))%Z) ->
  pop_by_precedence token q (popped ++ tail) = (q ++ popped, tail).
Proof.
  intros Hpopped Htail. revert q. induction Hpopped as [|u popped Hu _ IH]; intros q; simpl.
  - rewrite app_nil_r. destruct Htail as [-> | (top & below & -> & Hlt)]; [done|].
    simpl. destruct (Z.geb_spec (subscript precedence (value top))
                       (subscript precedence (value token))); [lia | done].
  - destruct (Z.geb_spec (subscript precedence (value u))
                (subscript precedence (value token))); [|lia].
    rewrite IH. unfold push_back. by rewrite <- app_assoc.
Qed.

Lemma pop_to_open_paren_exact (q popped : list Token) (open : Token) (tail : list Token) :
  Forall (fun u => value u <> "(") popped -> value open = "(" ->
  pop_to_open_paren q (popped ++ open :: tail) = (q ++ popped, open :: tail).
Proof.
  intros Hpopped Hopen. revert q. induction Hpopped as [|u popped Hu _ IH]; intros q; simpl.
  - by rewrite Hopen, app_nil_r.
  - apply String.eqb_neq in Hu. rewrite Hu. simpl.
    rewrite IH. unfold push_back. by rewrite <- app_assoc.
Qed.

Lemma stack_kinds_operators (s : list Token) :
  stack_kinds s -> Forall (fun u => type u = OPERATOR) s ->
  Forall (fun u => value u <> "(") s.
Proof.
  intros Hs Hop. unfold stack_kinds in Hs.
  rewrite Forall_forall in Hs, Hop |- *. intros u Hu Hvalue.
  destruct (stack_kinds_value u (Hs u Hu)) as [Hiff _].
  apply Hiff in Hvalue. specialize (Hop u Hu). congruence.
Qed.

(** A "(" below the stack is a floor that the tokens never go through. *)
Lemma parse_token_frame (token : Token) (q s q' s' q0 : list Token) (open : Token)
    (below : list Token) :
  (type token = OPERATOR -> is_Some (precedence !! value token)) ->
  stack_kinds s -> value open = "(" ->
  parse_token token q s = Some (q', s') ->
  parse_token token (q0 ++ q) (s ++ open :: below) = Some (q0 ++ q', s' ++ open :: below).
Proof.
  intros Hknown Hs Hopen Htoken.
  destruct (parse_token_step token q s q' s' Hknown Hs Htoken) as [Hstep _].
  destruct Hstep as [Htype | popped rest' Htype -> Hpopped Hrest | Htype Hvalue
                    | popped open' below' Htype Hvalue -> Hpopped Hopen' Hvalue'];
    unfold parse_token; rewrite Htype.
  - unfold push_back. by rewrite <- app_assoc.
  - rewrite <- app_assoc, (pop_by_precedence_exact token (q0 ++ q) popped).
    + by rewrite <- app_assoc.
    + eapply Forall_impl; [exact Hpopped|]. by intros u [_ Hu].
    + destruct Hrest as [-> | (top & below' & -> & Hlt)].
      * right. exists open, below. split; [done|]. rewrite Hopen.
        change (subscript precedence "(") with 0%Z.
        specialize (Hknown Htype). apply subscript_known in Hknown. lia.
      * right. by exists top, (below' ++ open :: below).
  - by rewrite Hvalue.
  - apply String.eqb_neq in Hvalue. rewrite Hvalue.
    rewrite <- app_assoc. simpl.
    rewrite (pop_to_open_paren_exact (q0 ++ q) popped open').
    + rewrite Hvalue'. simpl. by rewrite <- app_assoc.
    + apply Forall_app in Hs as [Hs _]. by apply stack_kinds_operators.
    + done.
Qed.

Lemma parse_loop_frame (tokens q s q' s' q0 : list Token) (open : Token)
    (below : list Token) :
  known_operators tokens -> stack_kinds s -> value open = "(" ->
  parse_loop tokens q s = Some (q', s') ->
  parse_loop tokens (q0 ++ q) (s ++ open :: below) = Some (q0 ++ q', s' ++ open :: below).
Proof.
  revert q s. induction tokens as [|token tokens IH]; intros q s Hknown Hs Hopen; simpl.
  - by intros [= <- <-].
  - destruct (parse_token token q s) as [[q1 s1]|] eqn:Htoken; [|done].
    assert (Hone : type token = OPERATOR -> is_Some (precedence !! value token)).
    { apply Hknown. by left. }
    rewrite (parse_token_frame token q s q1 s1 q0 open below Hone Hs Hopen Htoken).
    apply IH; [|by apply (parse_token_step token q s q1 s1) | done].
    intros t Ht. apply Hknown. by right.
Qed.

(** X10.  When the operators are those of the table and [parse] returns a
    non-empty sequence for the tokens, it returns the same sequence for
    these tokens between "(" and ")". *)
Theorem parse_in_parentheses (tokens : list Token) :
  known_operators tokens -> parse tokens <> [] ->
  parse (Parenthesis "(" :: tokens ++ [Parenthesis ")"]) = parse tokens.
Proof.
  intros Hknown Hne.
  destruct (parse_nonempty tokens Hne) as (q & s & Hloop & Hparse & Hs).
  pose proof (parse_loop_stack_kinds tokens [] [] q s Hknown (List.Forall_nil _) Hloop)
    as Hkinds.
  rewrite Hparse. unfold parse. cbn [parse_loop parse_token Parenthesis type value].
  simpl String.eqb. cbn iota.
  rewrite parse_loop_app.
  pose proof (parse_loop_frame tokens [] [] q s [] (Parenthesis "(") []
                Hknown (List.Forall_nil _) eq_refl Hloop) as Hframe.
  simpl in Hframe. rewrite Hframe.
  simpl. unfold parse_token. simpl.
  rewrite (pop_to_open_paren_exact q s (Parenthesis "(") []).
  - reflexivity.
  - apply stack_kinds_operators; [done|]. unfold stack_kinds in Hkinds.
    rewrite Forall_forall in Hkinds, Hs |- *. intros u Hu.
    destruct (Hkinds u Hu) as [[? _] | [? _]]; [done|]. by destruct (Hs u Hu).
  - done.
Qed.

(** ** The evaluator and the pipeline *)

Section EvaluatorMore.

Variable pow : double -> double -> double.

(** *** Tokens without effect *)

Lemma evaluate_loop_skips (postfix : list Token) (stack : list double) :
  evaluate_loop pow (filter acted_on postfix) stack = evaluate_loop pow postfix stack.
Proof.
  revert stack. induction postfix as [|token postfix IH]; intros stack; [done|].
  destruct (decide (acted_on token)) as [Hacted | Hother].
  - rewrite filter_cons_True by done. simpl.
    destruct (evaluate_token pow token stack); simpl; [done | apply IH].
  - rewrite filter_cons_False by done. simpl.
    assert (evaluate_token pow token stack = inr stack) as ->.
    { unfold evaluate_token. unfold acted_on in Hother.
      destruct (type token); [tauto | tauto | done | done]. }
    simpl. apply IH.
Qed.

(** X11.  [evaluate] passes over the tokens that are neither numbers nor
    operators: a postfix sequence with parenthesis or INVALID tokens gives
    what it gives without them. *)
Theorem evaluate_skips_other_tokens (postfix : list Token) :
  evaluate pow (filter acted_on postfix) = evaluate pow postfix.
Proof. unfold evaluate. by rewrite evaluate_loop_skips. Qed.

(** *** Numbers and binary operators *)

Lemma evaluate_token_count (token : Token) (stack stack' : list double) :
  evaluate_token pow token stack = inr stack' ->
  length stack' + length (filter binary [token])
  = length stack + length (filter (fun t => type t = NUMBER) [token]).
Proof.
  unfold evaluate_token. destruct (type token) eqn:Htype.
  - destruct (stod (value token)); [done|]. intros [= <-].
    rewrite filter_cons_False, filter_cons_True by (unfold binary; try tauto; intros [? _]; congruence).
    simpl. lia.
  - rewrite (filter_cons_False (fun t => type t = NUMBER)) by congruence.
    destruct (String.eqb_spec (value token) "~") as [Heq | Hne].
    + rewrite filter_cons_False by (by intros [_ ?]).
      destruct stack; [done|]. intros [= <-]. simpl. lia.
    + rewrite filter_cons_True by done.
      destruct stack as [|right_ [|left_ stack]]; [done..|].
      destruct (_ && _); [done|].
      destruct (applyOperator pow left_ right_ (value token)); [done|].
      intros [= <-]. simpl. lia.
  - intros [= <-]. rewrite !filter_cons_False by (try intros [? _]; congruence). simpl. lia.
  - intros [= <-]. rewrite !filter_cons_False by (try intros [? _]; congruence). simpl. lia.
Qed.

Lemma evaluate_loop_count (postfix : list Token) (stack stack' : list double) :
  evaluate_loop pow postfix stack = inr stack' ->
  length stack' + length (filter binary postfix)
  = length stack + length (filter (fun t => type t = NUMBER) postfix).
Proof.
  revert stack. induction postfix as [|token postfix IH]; intros stack; simpl.
  - intros [= <-]. done.
  - destruct (evaluate_token pow token stack) as [e | stack1] eqn:Htoken; [done|].
    simpl. intros Hloop. apply IH in Hloop. apply evaluate_token_count in Htoken.
    change (token :: postfix) with ([token] ++ postfix).
    rewrite !filter_app, !length_app. lia.
Qed.

(** X12.  A postfix sequence for which [evaluate] returns a result holds
    exactly one number token more than it holds binary operator tokens. *)
Theorem evaluate_counts_operands (postfix : list Token) (result : double) :
  evaluate pow postfix = inr result ->
  length (filter (fun t => type t = NUMBER) postfix)
  = S (length (filter binary postfix)).
Proof.
  unfold evaluate.
  destruct (evaluate_loop pow postfix []) as [e | stack] eqn:Hloop; [done|].
  simpl. destruct stack as [|top [|second stack]]; [done | | done].
  intros _. apply evaluate_loop_count in Hloop. simpl in Hloop. lia.
Qed.

(** *** Which exceptions can arise *)

Lemma stod_throws (str : string) (e : exception) :
  stod str = inl e -> stod_exception e.
Proof.
  unfold stod. destruct (Strtod.strtod str) as [[d []]|].
  - intros [= <-]. by right.
  - done.
  - intros [= <-]. by left.
Qed.

Lemma evaluate_token_throws (token : Token) (stack : list double) (e : exception) :
  (type token = OPERATOR -> emitted_operator_lexeme (value token)) ->
  evaluate_token pow token stack = inl e ->
  defined_exception e
  \/ (type token = NUMBER /\ stod (value token) = inl e /\ stod_exception e).
Proof.
  intros Hoperator. unfold evaluate_token. destruct (type token) eqn:Htype; [| |done..].
  - destruct (stod (value token)) as [e' | d] eqn:Hstod; [|done].
    intros [= <-]. right. split; [done|]. split; [done|]. by apply (stod_throws (value token)).
  - intros H. left. destruct (String.eqb_spec (value token) "~") as [Heq | Hne].
    + destruct stack; [|done]. injection H as <-. eexists. split; [done|]. right. by left.
    + destruct stack as [|right_ [|left_ stack]].
      * injection H as <-. eexists. split; [done|]. right; right; left. by eexists.
      * injection H as <-. eexists. split; [done|]. right; right; left. by eexists.
      * destruct (_ && _).
        -- injection H as <-. eexists. split; [done|]. right; right; right. by left.
        -- destruct (Hoperator eq_refl) as [? | (c & Hc & Hop)]; [done|]. rewrite Hc in H.
           by destruct (applyOperator_emitted pow left_ right_ c Hop) as [r Hr];
             rewrite Hr in H.
Qed.

Lemma evaluate_loop_throws (postfix : list Token) (stack : list double) (e : exception) :
  (forall t, t ∈ postfix -> type t = OPERATOR -> emitted_operator_lexeme (value t)) ->
  evaluate_loop pow postfix stack = inl e ->
  defined_exception e
  \/ exists t, t ∈ postfix /\ type t = NUMBER /\ stod (value t) = inl e
               /\ stod_exception e.
Proof.
  revert stack. induction postfix as [|token postfix IH]; intros stack Hall; simpl; [done|].
  destruct (evaluate_token pow token stack) as [e' | stack'] eqn:Htoken; simpl.
  - intros [= <-].
    destruct (evaluate_token_throws token stack e' (Hall token ltac:(by left)) Htoken)
      as [H | H]; [by left|]. right. exists token. split; [by left | done].
  - intros Hloop. destruct (IH stack') as [H | (t & Ht & H)]; [| done | by left |].
    + intros t Ht. apply Hall. by right.
    + right. exists t. split; [by right | done].
Qed.

Lemma evaluate_throws (postfix : list Token) (e : exception) :
  (forall t, t ∈ postfix -> type t = OPERATOR -> emitted_operator_lexeme (value t)) ->
  evaluate pow postfix = inl e ->
  defined_exception e
  \/ exists t, t ∈ postfix /\ type t = NUMBER /\ stod (value t) = inl e
               /\ stod_exception e.
Proof.
  intros Hall. unfold evaluate.
  destruct (evaluate_loop pow postfix []) as [e' | stack] eqn:Hloop; simpl.
  - intros [= <-]. by apply (evaluate_loop_throws postfix []).
  - destruct stack as [|top [|second stack]]; [|done|];
      (intros [= <-]; left; eexists; split; [done|]; by repeat right).
Qed.

Lemma tokenize_operators_emitted (expression : string) :
  forall t, t ∈ parse (tokenize expression) -> type t = OPERATOR ->
            emitted_operator_lexeme (value t).
Proof.
  intros t Ht. apply parse_subset in Ht.
  destruct (tokenize_shape expression) as [(c & _ & Hc) | Hshape].
  - rewrite Hc in Ht. apply list_elem_of_singleton in Ht as ->. done.
  - by apply (emitted_tokens true _ Hshape).
Qed.

(** X13.  An exception that leaves [handleExpression] is one of the two
    that [std::stod] throws, thrown on the lexeme of a number token of the
    expression; no [runtime_error] of the evaluator ever leaves it. *)
Theorem handleExpression_escaping_exception (expression : string) (e : exception) :
  handleExpression pow expression = inl e ->
  stod_exception e
  /\ exists t, t ∈ tokenize expression /\ type t = NUMBER /\ stod (value t) = inl e.
Proof.
  destruct (handleExpression_evaluates pow expression) as [-> | ->]; [done|].
  destruct (evaluate pow (parse (tokenize expression))) as [e' | r] eqn:Heval; [|done].
  destruct (evaluate_throws _ e' (tokenize_operators_emitted expression) Heval)
    as [(what & -> & _) | (t & Ht & Htype & Hstod & He)]; [done|].
  destruct He as [-> | ->]; intros [= <-].
  - split; [by left|]. exists t. split; [by apply parse_subset | done].
  - split; [by right|]. exists t. split; [by apply parse_subset | done].
Qed.

Lemma unknown_operator_undefined : ~ defined_error "Unknown operator".
Proof.
  intros [H | [H | [[op H] | [H | H]]]]; try discriminate H.
Qed.

(** X14.  An operator token whose lexeme is none of the seven operators
    makes the evaluator throw "Unknown operator" when two operands are on
    the stack; but handling an expression never ends with that text. *)
Theorem unknown_operator_unreachable (expression : string) :
  handleExpression pow expression <> inr (Text "Unknown operator")
  /\ (forall token right_ left_ stack,
        type token = OPERATOR ->
        ~ In (value token) ["~"; "^"; "*"; "/"; "%"; "+"; "-"] ->
        evaluate_token pow token (right_ :: left_ :: stack)
        = throw (runtime_error "Unknown operator")).
Proof.
  split.
  - destruct (handleExpression_evaluates pow expression) as [-> | ->]; [done|].
    destruct (evaluate pow (parse (tokenize expression))) as [e | r] eqn:Heval; [|done].
    destruct (evaluate_throws _ e (tokenize_operators_emitted expression) Heval)
      as [(what & -> & Hwhat) | (t & _ & _ & _ & [-> | ->])]; [|done..].
    intros [= ->]. by apply unknown_operator_undefined.
  - intros token right_ left_ stack Htype Hvalue.
    assert (Hne : forall op, In op ["~"; "^"; "*"; "/"; "%"; "+"; "-"] ->
                             String.eqb (value token) op = false).
    { intros op Hop. apply String.eqb_neq. intros Heq. apply Hvalue. by rewrite Heq. }
    unfold evaluate_token, applyOperator. rewrite Htype.
    rewrite (Hne "~"), (Hne "/"), (Hne "%"), (Hne "+"), (Hne "-"), (Hne "*"), (Hne "^")
      by (simpl; tauto).
    reflexivity.
Qed.

(** *** Postfix sequences compose *)

Lemma evaluate_token_frame (token : Token) (stack stack' frame : list double) :
  evaluate_token pow token stack = inr stack' ->
  evaluate_token pow token (stack ++ frame) = inr (stack' ++ frame).
Proof.
  unfold evaluate_token. destruct (type token).
  - destruct (stod (value token)); [done|]. by intros [= <-].
  - destruct (String.eqb (value token) "~").
    + destruct stack; [done|]. by intros [= <-].
    + destruct stack as [|right_ [|left_ stack]]; [done..|]. simpl.
      destruct (_ && _); [done|].
      destruct (applyOperator pow left_ right_ (value token)); [done|]. by intros [= <-].
  - by intros [= <-].
  - by intros [= <-].
Qed.

Lemma evaluate_loop_frame (postfix : list Token) (stack stack' frame : list double) :
  evaluate_loop pow postfix stack = inr stack' ->
  evaluate_loop pow postfix (stack ++ frame) = inr (stack' ++ frame).
Proof.
  revert stack. induction postfix as [|token postfix IH]; intros stack; simpl.
  - by intros [= <-].
  - destruct (evaluate_token pow token stack) as [e | stack1] eqn:Htoken; [done|].
    rewrite (evaluate_token_frame token stack stack1 frame Htoken). simpl. apply IH.
Qed.

Lemma evaluate_returns (postfix : list Token) (result : double) :
  evaluate pow postfix = inr result -> evaluate_loop pow postfix [] = inr [result].
Proof.
  unfold evaluate. destruct (evaluate_loop pow postfix []) as [e | stack]; [done|].
  simpl. destruct stack as [|top [|second stack]]; [done | | done]. by intros [= <-].
Qed.

(** X15.  When two postfix sequences evaluate to [a] and [b], the first
    followed by "~" evaluates to the negation of [a], and the first, the
    second and a binary operator evaluate to what the operator gives for
    the left operand [a] and the right operand [b] (the division-by-zero
    error for "/" and "%" when [b] is zero). *)
Theorem evaluate_composes (first second : list Token) (a b : double) :
  evaluate pow first = inr a -> evaluate pow second = inr b ->
  evaluate pow (first ++ [Operator "~"]) = inr (- a)%double
  /\ forall token, type token = OPERATOR -> value token <> "~" ->
       evaluate pow (first ++ second ++ [token])
       = if (String.eqb (value token) "/" || String.eqb (value token) "%")
            && (b == S754_zero false)%double
         then throw DivisionByZero
         else applyOperator pow a b (value token).
Proof.
  intros Hfirst Hsecond.
  apply evaluate_returns in Hfirst. apply evaluate_returns in Hsecond. split.
  - unfold evaluate. rewrite evaluate_loop_app, Hfirst. reflexivity.
  - intros token Htype Hvalue. unfold evaluate.
    rewrite evaluate_loop_app, Hfirst. simpl.
    pose proof (evaluate_loop_frame second [] [b] [a] Hsecond) as Hframe.
    simpl in Hframe. rewrite evaluate_loop_app, Hframe. simpl.
    rewrite (evaluate_token_binary pow token b a [] Htype Hvalue).
    destruct (_ && _); [done|].
    by destruct (applyOperator pow a b (value token)).
Qed.

End EvaluatorMore.

(** ** Expressions in full parentheses *)

Lemma operator_char_lexeme (op : ascii) :
  isOperator op = true ->
  String.eqb (string1 op) "~" = false
  /\ String.eqb (string1 op) "(" = false
  /\ String.eqb (string1 op) "/" = Ascii.eqb op "/"
  /\ String.eqb (string1 op) "%" = Ascii.eqb op "%"
  /\ (1 <= subscript precedence (string1 op))%Z.
Proof.
  each_ascii op; intros H; vm_compute in H; try discriminate H; vm_compute;
    repeat split; congruence.
Qed.

(** *** The tokenizer on the text *)

Lemma tokenize_loop_text (e : Expression) :
  well_formed e ->
  forall tail mayBeUnary tokens,
    (tail = "" \/ exists d rest, tail = String d rest /\ isNumberChar d = false) ->
    tokenize_loop (text e +:+ tail) mayBeUnary tokens
    = tokenize_loop tail false (tokens ++ infix e).
Proof.
  induction e as [lexeme | operand IH | op left_ IHleft right_ IHright];
    intros Hwf tail mayBeUnary tokens Htail.
  - destruct Hwf as [Hne Hrun]. destruct lexeme as [|c run]; [done|].
    simpl in Hrun. apply andb_true_iff in Hrun as [Hc Hrun].
    by apply tokenize_loop_number_run.
  - simpl in Hwf. cbn [text infix].
    rewrite !append_assoc. simpl. rewrite tokenize_loop_unfold. simpl.
    rewrite tokenize_loop_unfold. simpl.
    rewrite IH; [|done|right; by eexists _, _].
    rewrite tokenize_loop_unfold. simpl.
    unfold push_back. by rewrite <- !app_assoc.
  - destruct Hwf as (Hop & Hleft & Hright). cbn [text infix].
    destruct (operator_char_classes op Hop) as [Hspace Hnumber].
    rewrite !append_assoc. simpl. rewrite tokenize_loop_unfold. simpl.
    rewrite IHleft; [|done|right; by exists op, (text right_ +:+ ")" +:+ tail)].
    rewrite tokenize_loop_unfold, Hspace, Hnumber, Hop, !andb_false_r.
    rewrite IHright; [|done|right; by eexists _, _].
    rewrite tokenize_loop_unfold. simpl.
    unfold push_back. by rewrite <- !app_assoc.
Qed.

Lemma tokenize_text (e : Expression) : well_formed e -> tokenize (text e) = infix e.
Proof.
  intros Hwf. unfold tokenize. rewrite <- (append_empty_r (text e)).
  rewrite tokenize_loop_text by auto. reflexivity.
Qed.

(** *** The parser on the tokens *)

Lemma parse_token_open (q s : list Token) :
  parse_token (Parenthesis "(") q s = Some (q, Parenthesis "(" :: s).
Proof. reflexivity. Qed.

Lemma parse_token_on_open (token : Token) (q s : list Token) :
  type token = OPERATOR -> (1 <= subscript precedence (value token))%Z ->
  parse_token token q (Parenthesis "(" :: s) = Some (q, token :: Parenthesis "(" :: s).
Proof.
  intros Htype Hprec. unfold parse_token. rewrite Htype. simpl.
  change (subscript precedence "(") with 0%Z.
  destruct (Z.geb_spec 0 (subscript precedence (value token))); [lia | done].
Qed.

Lemma parse_token_close (token : Token) (q s : list Token) :
  String.eqb (value token) "(" = false ->
  parse_token (Parenthesis ")") q (token :: Parenthesis "(" :: s)
  = Some (q ++ [token], s).
Proof. intros Hvalue. unfold parse_token. simpl. by rewrite Hvalue. Qed.

Lemma parse_loop_infix (e : Expression) :
  well_formed e ->
  forall q s, parse_loop (infix e) q s = Some (q ++ postfix e, s).
Proof.
  induction e as [lexeme | operand IH | op left_ IHleft right_ IHright]; intros Hwf q s.
  - reflexivity.
  - simpl in Hwf. cbn [infix postfix app parse_loop].
    rewrite parse_token_open, (parse_token_on_open (Operator "~")) by done.
    rewrite parse_loop_app, IH by done. cbn [parse_loop].
    rewrite parse_token_close by done. by rewrite app_assoc.
  - destruct Hwf as (Hop & Hleft & Hright).
    destruct (operator_char_lexeme op Hop) as (_ & Hopen & _ & _ & Hprec).
    cbn [infix postfix app parse_loop]. rewrite parse_token_open.
    rewrite parse_loop_app, IHleft by done. cbn [app parse_loop].
    rewrite (parse_token_on_open (Operator (string1 op))) by done.
    rewrite parse_loop_app, IHright by done. cbn [parse_loop].
    rewrite parse_token_close by done. by rewrite <- !app_assoc.
Qed.

Lemma postfix_nonempty (e : Expression) : postfix e <> [].
Proof.
  destruct e; simpl; [done | |].
  - intros H. apply app_eq_nil in H as [_ H]. done.
  - intros H. apply app_eq_nil in H as [_ H]. apply app_eq_nil in H as [_ H]. done.
Qed.

Lemma parse_infix (e : Expression) : well_formed e -> parse (infix e) = postfix e.
Proof. intros Hwf. unfold parse. by rewrite parse_loop_infix. Qed.

(** *** The evaluator on the postfix order *)

Section Denotation.

Variable pow : double -> double -> double.

Lemma evaluate_loop_postfix (e : Expression) :
  well_formed e ->
  forall stack,
    evaluate_loop pow (postfix e) stack
    = denote pow e ≫= fun a => mret (a :: stack).
Proof.
  induction e as [lexeme | operand IH | op left_ IHleft right_ IHright]; intros Hwf stack.
  - simpl. unfold evaluate_token. simpl. by destruct (stod lexeme).
  - simpl in Hwf. cbn [postfix denote]. rewrite evaluate_loop_app, IH by done.
    destruct (denote pow operand) as [ex | a]; [done|]. reflexivity.
  - destruct Hwf as (Hop & Hleft & Hright). cbn [postfix denote].
    destruct (operator_char_lexeme op Hop) as (Hminus & _ & Hdiv & Hmod & _).
    rewrite evaluate_loop_app, IHleft by done.
    destruct (denote pow left_) as [ex | a]; [done|]. simpl.
    rewrite evaluate_loop_app, IHright by done.
    destruct (denote pow right_) as [ex | b]; [done|].
    cbn [mbind throws_bind mret throws_ret evaluate_loop].
    assert (Hne : value (Operator (string1 op)) <> "~") by (by apply String.eqb_neq).
    rewrite (evaluate_token_binary pow (Operator (string1 op)) b a stack eq_refl Hne).
    cbn [value Operator]. rewrite Hdiv, Hmod.
    destruct (_ && _); [done|].
    by destruct (applyOperator pow a b (string1 op)).
Qed.

Lemma evaluate_postfix (e : Expression) :
  well_formed e -> evaluate pow (postfix e) = denote pow e.
Proof.
  intros Hwf. unfold evaluate. rewrite evaluate_loop_postfix by done.
  by destruct (denote pow e).
Qed.

(** X16.  For an expression with every operation in its own parentheses,
    over number lexemes and the six operator characters, the tokens of its
    text are its tokens in infix order, and [parse] turns them into its
    postfix order: operands first, left before right, then the operator. *)
Theorem tokenize_parse_expression (e : Expression) :
  well_formed e ->
  tokenize (text e) = infix e /\ parse (infix e) = postfix e
  /\ parse (tokenize (text e)) = postfix e.
Proof.
  intros Hwf. rewrite (tokenize_text e Hwf), (parse_infix e Hwf). done.
Qed.

(** X17.  Handling the text of such an expression gives the value of the
    expression computed on its tree, operands from left to right and then
    the operation with [applyOperator]: the double written out, the text
    of the first [runtime_error] met, or the exception of [std::stod]. *)
Theorem handleExpression_expression (e : Expression) :
  well_formed e ->
  handleExpression pow (text e)
  = match denote pow e with
    | inr evalResult => inr (Printed evalResult)
    | inl (runtime_error what) => inr (Text what)
    | inl ex => inl ex
    end.
Proof.
  intros Hwf. unfold handleExpression.
  rewrite (tokenize_text e Hwf), (parse_infix e Hwf), (evaluate_postfix e Hwf).
  pose proof (postfix_nonempty e) as Hne.
  destruct (postfix e) as [|first rest]; [done|].
  destruct e; reflexivity.
Qed.

End Denotation.

(** ** The tokens of a text as input of the parser *)

(** The operators of a tokenized text are operators of the table. *)
Lemma tokenize_known_operators (expression : string) :
  known_operators (tokenize expression).
Proof.
  intros t Ht Htype.
  destruct (tokenize_shape expression) as [(c & _ & Hc) | Hshape].
  - rewrite Hc in Ht. apply list_elem_of_singleton in Ht as ->. done.
  - pose proof (emitted_lexemes true _ Hshape t Ht) as Hlex. by rewrite Htype in Hlex.
Qed.

(** ** Instances *)

Lemma evaluate_zero_divisor_throws_witness :
  (evaluate_loop pow_natural [Number "5"; Number "0"] []
     = inr [S754_zero false; of_Z 5]
   /\ type (Operator "%") = OPERATOR
   /\ (value (Operator "%") = "/" \/ value (Operator "%") = "%")
   /\ (S754_zero false == S754_zero false)%double = true)
  /\ evaluate pow_natural ([Number "5"; Number "0"] ++ Operator "%" :: [])
     = throw DivisionByZero.
Proof.
  split.
  - split; [vm_compute; reflexivity|].
    split; [reflexivity|]. split; [right; reflexivity | reflexivity].
  - apply (evaluate_zero_divisor_throws pow_natural
             [Number "5"; Number "0"] [] (Operator "%")
             (S754_zero false) (of_Z 5) []);
      [vm_compute; reflexivity | reflexivity | right; reflexivity | reflexivity].
Defined.

Lemma evaluate_operand_arity_witness :
  (evaluate_loop pow_natural [Number "5"] [] = inr [of_Z 5]
   /\ type (Operator "+") = OPERATOR)
  /\ (value (Operator "+") <> "~" -> length [of_Z 5] < 2 ->
      evaluate pow_natural ([Number "5"] ++ Operator "+" :: [])
      = throw (InsufficientOperands "+")).
Proof.
  split.
  - split; vm_compute; reflexivity.
  - apply (evaluate_operand_arity pow_natural [Number "5"] [] (Operator "+") [of_Z 5]);
      vm_compute; reflexivity.
Defined.

Lemma evaluate_final_stack_witness :
  evaluate_loop pow_natural [Number "3"; Number "4"] [] = inr [of_Z 4; of_Z 3]
  /\ (length [of_Z 4; of_Z 3] <> 1 ->
      evaluate pow_natural [Number "3"; Number "4"] = throw InvalidExpressionFormat).
Proof.
  split.
  - vm_compute. reflexivity.
  - apply (evaluate_final_stack pow_natural [Number "3"; Number "4"] [of_Z 4; of_Z 3]).
    vm_compute. reflexivity.
Defined.

Lemma pipeline_values_left_associative_witness :
  (pow_natural (of_Z 2) (of_Z 3) = of_Z 8 /\ pow_natural (of_Z 8) (of_Z 2) = of_Z 64)
  /\ handleExpression pow_natural "2 ^ 3 ^ 2" = inr (Printed (of_Z 64)).
Proof.
  split.
  - split; vm_compute; reflexivity.
  - apply (pipeline_values_left_associative pow_natural); vm_compute; reflexivity.
Defined.

Lemma tokenize_offending_character_witness :
  (exists c, In c (list_ascii_of_string "3 @ 4") /\ offending c = true)
  /\ exists before c after,
       "3 @ 4" = before +:+ String c after
       /\ all_chars valid before = true /\ offending c = true
       /\ tokenize "3 @ 4" = [Invalid c].
Proof.
  assert (H : exists c, In c (list_ascii_of_string "3 @ 4") /\ offending c = true).
  { exists "@"%char. split; [simpl; tauto | reflexivity]. }
  split; [exact H|].
  exact (proj1 (tokenize_offending_character "3 @ 4" H)).
Defined.

Lemma parse_empty_characterised_witness :
  (forall t, t ∈ tokenize "3 + 4)" -> type t = OPERATOR -> value t <> "(")
  /\ (parse (tokenize "3 + 4)") = [] <->
      has_invalid (tokenize "3 + 4)") \/ closes_unopened (tokenize "3 + 4)")
      \/ leaves_open (tokenize "3 + 4)")
      \/ Forall (fun t => type t = PARENTHESIS) (tokenize "3 + 4)")).
Proof.
  assert (H : forall t, t ∈ tokenize "3 + 4)" -> type t = OPERATOR -> value t <> "(").
  { intros t Ht Htype.
    repeat (apply elem_of_cons in Ht as [-> | Ht]; [discriminate|]).
    by apply elem_of_nil in Ht. }
  split; [exact H|].
  exact (proj1 (parse_empty_characterised (tokenize "3 + 4)") H)).
Defined.

Lemma open_paren_outlives_precedence_step_witness :
  (forall t, t ∈ tokenize "(3 + 4) * 2" -> type t = OPERATOR ->
             is_Some (precedence !! value t))
  /\ forall t, t ∈ parse (tokenize "(3 + 4) * 2") -> type t <> PARENTHESIS.
Proof.
  assert (H : forall t, t ∈ tokenize "(3 + 4) * 2" -> type t = OPERATOR ->
                        is_Some (precedence !! value t)).
  { intros t Ht Htype.
    repeat (apply elem_of_cons in Ht as [-> | Ht];
            [first [discriminate Htype | by eexists]|]).
    by apply elem_of_nil in Ht. }
  split; [exact H|].
  exact (proj2 (proj2 (open_paren_outlives_precedence_step (tokenize "(3 + 4) * 2") H))).
Defined.

Lemma tokenize_rejoin_roundtrip_witness :
  ((forall t, t ∈ tokenize "(3 + 4) * 2" -> type t <> INVALID)
   /\ (forall t, t ∈ tokenize "(3 + 4) * 2" -> value t <> "~"))
  /\ tokenize (rejoin (tokenize "(3 + 4) * 2")) = tokenize "(3 + 4) * 2".
Proof.
  assert (H : forall t, t ∈ tokenize "(3 + 4) * 2" ->
                        type t <> INVALID /\ value t <> "~").
  { intros t Ht.
    repeat (apply elem_of_cons in Ht as [-> | Ht]; [split; discriminate|]).
    by apply elem_of_nil in Ht. }
  split.
  - split; intros t Ht; apply (H t Ht).
  - apply (tokenize_rejoin_roundtrip "(3 + 4) * 2"); intros t Ht; apply (H t Ht).
Defined.

Lemma handleExpression_outcome_witness :
  (forall t, t ∈ tokenize "5 / 0" -> type t = NUMBER ->
             exists d, stod (value t) = inr d)
  /\ double_or_defined_error (handleExpression pow_natural "5 / 0").
Proof.
  assert (H : forall t, t ∈ tokenize "5 / 0" -> type t = NUMBER ->
                        exists d, stod (value t) = inr d).
  { intros t Ht Htype.
    repeat (apply elem_of_cons in Ht as [-> | Ht];
            [first [discriminate Htype | eexists; vm_compute; reflexivity]|]).
    by apply elem_of_nil in Ht. }
  split; [exact H|].
  exact (handleExpression_outcome pow_natural "5 / 0" H).
Defined.

(** ** Instances of the further properties *)

Lemma tokenize_token_classes_witness :
  Operator "+" ∈ tokenize "3 + 4"
  /\ is_Some (precedence !! "+").
Proof.
  assert (H : Operator "+" ∈ tokenize "3 + 4") by (right; left).
  split; [exact H|].
  exact (proj1 (tokenize_token_classes "3 + 4" (Operator "+") H)).
Defined.

Lemma tokenize_number_run_witness :
  ("1.2.3" <> "" /\ all_chars isNumberChar "1.2.3" = true)
  /\ tokenize "1.2.3" = [Number "1.2.3"].
Proof.
  split; [split; [discriminate | reflexivity]|].
  exact (proj1 (tokenize_number_run "1.2.3" ltac:(discriminate) eq_refl)).
Defined.

Lemma tokenize_outer_space_witness :
  (all_chars isspace "  " = true /\ all_chars isspace " " = true)
  /\ tokenize ("  " +:+ "3+4" +:+ " ") = tokenize "3+4".
Proof.
  split; [split; reflexivity|].
  exact (tokenize_outer_space "  " "3+4" " " eq_refl eq_refl).
Defined.

Lemma parse_permutes_operands_and_operators_witness :
  (known_operators (tokenize "(3 + 4) * 2") /\ parse (tokenize "(3 + 4) * 2") <> [])
  /\ parse (tokenize "(3 + 4) * 2")
     ≡ₚ filter (fun t => type t <> PARENTHESIS) (tokenize "(3 + 4) * 2").
Proof.
  split; [split; [apply tokenize_known_operators | discriminate]|].
  exact (proj1 (parse_permutes_operands_and_operators (tokenize "(3 + 4) * 2")
                  (tokenize_known_operators "(3 + 4) * 2") ltac:(discriminate))).
Defined.

Lemma parse_keeps_number_order_witness :
  (known_operators (tokenize "(3 + 4) * 2") /\ parse (tokenize "(3 + 4) * 2") <> [])
  /\ filter (fun t => type t = NUMBER) (parse (tokenize "(3 + 4) * 2"))
     = filter (fun t => type t = NUMBER) (tokenize "(3 + 4) * 2").
Proof.
  split; [split; [apply tokenize_known_operators | discriminate]|].
  exact (parse_keeps_number_order (tokenize "(3 + 4) * 2")
           (tokenize_known_operators "(3 + 4) * 2") ltac:(discriminate)).
Defined.

Lemma parse_fails_on_imbalance_witness :
  (known_operators (tokenize "(3 + 4") /\ ~ has_invalid (tokenize "(3 + 4"))
  /\ (closes_unopened (tokenize "(3 + 4") \/ leaves_open (tokenize "(3 + 4")
      <-> balanced_from 0 (tokenize "(3 + 4") = false).
Proof.
  assert (H : ~ has_invalid (tokenize "(3 + 4")).
  { intros (t & Ht & Htype).
    repeat (apply elem_of_cons in Ht as [-> | Ht]; [discriminate Htype|]).
    by apply elem_of_nil in Ht. }
  split; [split; [apply tokenize_known_operators | exact H]|].
  exact (proj1 (parse_fails_on_imbalance (tokenize "(3 + 4")
                  (tokenize_known_operators "(3 + 4") H)).
Defined.

Lemma operator_stack_ascending_witness :
  (known_operators (tokenize "1 + 2 * 3 ^")
   /\ parse_loop (tokenize "1 + 2 * 3 ^") [] []
      = Some ([Number "1"; Number "2"; Number "3"],
              [Operator "^"; Operator "*"; Operator "+"]))
  /\ ascending [Operator "^"; Operator "*"; Operator "+"].
Proof.
  split; [split; [apply tokenize_known_operators | reflexivity]|].
  exact (operator_stack_ascending (tokenize "1 + 2 * 3 ^")
           [Number "1"; Number "2"; Number "3"]
           [Operator "^"; Operator "*"; Operator "+"]
           (tokenize_known_operators "1 + 2 * 3 ^") eq_refl).
Defined.

Lemma parse_in_parentheses_witness :
  (known_operators (tokenize "3 + 4 * 2") /\ parse (tokenize "3 + 4 * 2") <> [])
  /\ parse (Parenthesis "(" :: tokenize "3 + 4 * 2" ++ [Parenthesis ")"])
     = parse (tokenize "3 + 4 * 2").
Proof.
  split; [split; [apply tokenize_known_operators | discriminate]|].
  exact (parse_in_parentheses (tokenize "3 + 4 * 2")
           (tokenize_known_operators "3 + 4 * 2") ltac:(discriminate)).
Defined.

Lemma evaluate_counts_operands_witness :
  evaluate pow_natural (parse (tokenize "3 + 4 * 2")) = inr (of_Z 11)
  /\ length (filter (fun t => type t = NUMBER) (parse (tokenize "3 + 4 * 2")))
     = S (length (filter binary (parse (tokenize "3 + 4 * 2")))).
Proof.
  assert (H : evaluate pow_natural (parse (tokenize "3 + 4 * 2")) = inr (of_Z 11))
    by (vm_compute; reflexivity).
  split; [exact H|].
  exact (evaluate_counts_operands pow_natural (parse (tokenize "3 + 4 * 2")) (of_Z 11) H).
Defined.

Lemma handleExpression_escaping_exception_witness :
  handleExpression pow_natural "3 + ." = inl (invalid_argument "stod")
  /\ stod_exception (invalid_argument "stod").
Proof.
  assert (H : handleExpression pow_natural "3 + ." = inl (invalid_argument "stod"))
    by (vm_compute; reflexivity).
  split; [exact H|].
  exact (proj1 (handleExpression_escaping_exception pow_natural "3 + ."
                  (invalid_argument "stod") H)).
Defined.

Lemma evaluate_composes_witness :
  (evaluate pow_natural [Number "5"] = inr (of_Z 5)
   /\ evaluate pow_natural [Number "3"] = inr (of_Z 3))
  /\ evaluate pow_natural ([Number "5"] ++ [Operator "~"]) = inr (- of_Z 5)%double.
Proof.
  split; [split; vm_compute; reflexivity|].
  exact (proj1 (evaluate_composes pow_natural [Number "5"] [Number "3"] (of_Z 5) (of_Z 3)
                  ltac:(vm_compute; reflexivity) ltac:(vm_compute; reflexivity))).
Defined.

Lemma tokenize_parse_expression_witness :
  well_formed (Operation "+" (Literal "3") (Operation "*" (Literal "4") (Negation (Literal "2"))))
  /\ parse (tokenize "(3+(4*(-2)))")
     = [Number "3"; Number "4"; Number "2"; Operator "~"; Operator "*"; Operator "+"].
Proof.
  assert (H : well_formed (Operation "+" (Literal "3")
                             (Operation "*" (Literal "4") (Negation (Literal "2"))))).
  { simpl. repeat split; discriminate. }
  split; [exact H|].
  exact (proj2 (proj2 (tokenize_parse_expression _ H))).
Defined.

Lemma handleExpression_expression_witness :
  well_formed (Operation "+" (Literal "3") (Operation "*" (Literal "4") (Negation (Literal "2"))))
  /\ handleExpression pow_natural "(3+(4*(-2)))" = inr (Printed (of_Z (-5))).
Proof.
  assert (H : well_formed (Operation "+" (Literal "3")
                             (Operation "*" (Literal "4") (Negation (Literal "2"))))).
  { simpl. repeat split; discriminate. }
  split; [exact H|].
  exact (handleExpression_expression pow_natural _ H).
Defined.
